(** * simulacao_epidemia: SIR equations, the ring automaton and the
      box-counting dimension

    A shallow embedding of [simulacao_epidemia.py].

    - [sir_equations] is embedded twice: in binary64, as the program
      computes it ([SIRFloat]), and with its expressions read over the real
      numbers, in exact arithmetic ([SIR]); what is proved of the second
      is stated as a fact of exact arithmetic.
    - [run_ca_simulation] is embedded with explicit state passing: the
      process-wide random generator is a stream of draws together with the
      position of the next draw; probabilities and draws are rationals
      (every float is one), compared exactly.
    - [calculate_box_dimension] is embedded over lists of cell values; the
      logarithms and the regression are taken over the real numbers, i.e.
      the floating point arithmetic of numpy/scipy is idealised as exact.

    Python exceptions are the [Raise] outcomes of a small error monad. *)

From Stdlib Require Import Reals Lra Lia QArith ZArith List Bool.
From Stdlib Require PrimFloat.
From stdpp Require Import base list.
Import ListNotations.

(** ** Outcomes of a Python call *)

Inductive exn : Set :=
  | IndexError
  | OverflowError
  | ValueError
  | ZeroDivisionError.

Inductive result (A : Type) : Type :=
  | Ok (a : A)
  | Raise (e : exn).
Arguments Ok {A} a.
Arguments Raise {A} e.

#[global] Instance result_ret : MRet result := fun A a => Ok a.

#[global] Instance result_bind : MBind result := fun A B k m =>
  match m with
  | Ok a => k a
  | Raise e => Raise e
  end.

(** A float64 as far as this program can tell floats apart: a real number
    or the not-a-number value. *)
Inductive npfloat : Type :=
  | Num (r : R)
  | NaN.

Definition np_isnan (v : npfloat) : bool :=
  match v with
  | Num _ => false
  | NaN => true
  end.

(** ** Cell states *)

Definition SUSCEPTIBLE : Z := 0.
Definition INFECTED : Z := 1.
Definition RECOVERED : Z := 2.

(** ** Box-counting dimension *)

Module BoxDim.

(** [grid_state > 0], cell by cell. *)
Definition active (c : Z) : bool := (0 <? c)%Z.

(** [np.where(grid_state > 0)[0]]: the indices of the active cells, in
    increasing order. *)
Definition active_cells_indices (grid_state : list Z) : list nat :=
  List.filter (fun i => active (nth i grid_state 0%Z))
              (seq 0 (length grid_state)).

(** [int(np.log2(L))]: [np.log2(0)] is minus infinity, which [int] refuses;
    otherwise the integer part of the binary logarithm (the float logarithm
    is exact at the powers of two and its integer part is the right one for
    every array length that fits in memory). *)
Definition int_log2 (L : nat) : result nat :=
  if L =? 0 then Raise OverflowError else Ok (Nat.log2 L).

(** [[2**i for i in range(max_power) if 2**i < L]] *)
Definition gen_box_sizes (max_power L : nat) : list nat :=
  map (fun i => 2 ^ i) (List.filter (fun i => 2 ^ i <? L) (seq 0 max_power)).

(** The box sizes generated for a grid of length [L] (lines 91-92). *)
Definition box_sizes (L : nat) : result (list nat) :=
  max_power ← int_log2 L;
  Ok (gen_box_sizes max_power L).

(** [range(0, stop, step)] for a positive [step]. *)
Definition range_step (stop step : nat) : list nat :=
  map (fun j => j * step) (seq 0 ((stop + step - 1) / step)).

(** [np.any(box > 0)] *)
Definition any_active (box : list Z) : bool := existsb active box.

(** [grid_state[i:j]]; a slice is cut short at the end of the array. *)
Definition slice (grid_state : list Z) (i j : nat) : list Z :=
  take (j - i) (drop i grid_state).

(** The inner loop of lines 100-104: the number of windows of width [size]
    that hold an active cell. *)
Definition count_boxes (grid_state : list Z) (L size : nat) : nat :=
  fold_left
    (fun count i =>
       if any_active (slice grid_state i (i + size)) then count + 1 else count)
    (range_step L size) 0.

(** [[i for i, count in enumerate(box_counts) if count > 0]] *)
Definition valid_indices (box_counts : list nat) : list nat :=
  List.filter (fun i => 0 <? nth i box_counts 0) (seq 0 (length box_counts)).

(** [[l[i] for i in valid_indices]]; the indices come from [enumerate], so
    every one of them is in range. *)
Definition select (l : list nat) (indices : list nat) : list nat :=
  map (fun i => nth i l 0) indices.

(** *** The regression of scipy, over the reals *)

#[global] Instance R_eq_dec : EqDecision R := Req_dec_T.

Definition Rsum (x : list R) : R := fold_right Rplus 0%R x.

(** [np.mean] *)
Definition mean (x : list R) : R := (Rsum x / INR (length x))%R.

(** One entry of [np.cov(x, y, bias=1)]: the mean of the products of the
    deviations from the means. *)
Definition cov (x y : list R) : R :=
  mean (zip_with (fun a b => ((a - mean x) * (b - mean y))%R) x y).

(** [np.amax] and [np.amin] of a non-empty array. *)
Definition amax (x : list R) : R :=
  match x with
  | [] => 0%R
  | a :: x' => fold_left Rmax x' a
  end.

Definition amin (x : list R) : R :=
  match x with
  | [] => 0%R
  | a :: x' => fold_left Rmin x' a
  end.

(** [scipy.stats.linregress(x, y)], the slope only. Empty inputs and
    inputs whose x values are all the same are refused with [ValueError],
    and so are arrays of different lengths (by [np.cov]). The slope is
    [ssxym / ssxm]; with a single point both are zero and the quotient is
    not a number. *)
Definition linregress (x y : list R) : result npfloat :=
  if (length x =? 0) || (length y =? 0) then Raise ValueError
  else if (1 <? length x) && bool_decide (amax x = amin x) then
    Raise ValueError
  else if negb (length x =? length y) then Raise ValueError
  else
    let ssxm := cov x x in
    let ssxym := cov x y in
    if bool_decide (ssxm = 0%R) then Ok NaN else Ok (Num (ssxym / ssxm)).

(** [np.log([1.0/s for s in box_sizes_valid])] *)
Definition log_inv_sizes (box_sizes_valid : list nat) : list R :=
  map (fun s => ln (1 / INR s)) box_sizes_valid.

(** [np.log(box_counts_valid)] *)
Definition log_counts_of (box_counts_valid : list nat) : list R :=
  map (fun c => ln (INR c)) box_counts_valid.

(** Lines 120-125: the regression, its [ValueError] and a slope that is
    not a number are all turned into 0.0; other exceptions pass through. *)
Definition regression_slope (x y : list R) : result R :=
  match linregress x y with
  | Raise ValueError => Ok 0%R
  | Raise e => Raise e
  | Ok slope => if negb (np_isnan slope) then
                  match slope with Num r => Ok r | NaN => Ok 0%R end
                else Ok 0%R
  end.

(** [calculate_box_dimension(grid_state)] *)
Definition calculate_box_dimension (grid_state : list Z) : result R :=
  let active_cells := active_cells_indices grid_state in
  if length active_cells <? 2 then Ok 0%R
  else
    let L := length grid_state in
    max_power ← int_log2 L;
    let box_sizes := gen_box_sizes max_power L in
    if length box_sizes =? 0 then Ok 0%R
    else
      let box_counts := map (count_boxes grid_state L) box_sizes in
      let valid := valid_indices box_counts in
      if length valid <? 2 then Ok 0%R
      else
        let box_sizes_valid := select box_sizes valid in
        let box_counts_valid := select box_counts valid in
        regression_slope (log_inv_sizes box_sizes_valid)
                         (log_counts_of box_counts_valid).

(** The intermediate values of a call, named after the variables of the
    source, as functions of the grid. *)
Definition sizes_of (grid_state : list Z) : list nat :=
  gen_box_sizes (Nat.log2 (length grid_state)) (length grid_state).

Definition counts_of (grid_state : list Z) : list nat :=
  map (count_boxes grid_state (length grid_state)) (sizes_of grid_state).

Definition valid_of (grid_state : list Z) : list nat :=
  valid_indices (counts_of grid_state).

Definition regression_of (grid_state : list Z) : result npfloat :=
  linregress
    (log_inv_sizes (select (sizes_of grid_state) (valid_of grid_state)))
    (log_counts_of (select (counts_of grid_state) (valid_of grid_state))).

(** Every cell of the grid is active. *)
Definition all_active (grid_state : list Z) : Prop :=
  Forall (fun c => active c = true) grid_state.

(** The degenerate cases of a call: fewer than two active cells, no box
    size, fewer than two box sizes with a positive count, a regression
    that fails or whose slope is not a number. *)
Definition degenerate (grid_state : list Z) : Prop :=
  length (active_cells_indices grid_state) < 2 \/
  sizes_of grid_state = [] \/
  length (valid_of grid_state) < 2 \/
  regression_of grid_state = Raise ValueError \/
  regression_of grid_state = Ok NaN.

(** [s] is one of the box sizes generated for a grid of length [L]. *)
Definition generated (L s : nat) : Prop :=
  exists l, box_sizes L = Ok l /\ In s l.

End BoxDim.

(** ** The SIR equations, in exact arithmetic *)

Module SIR.

(** [a / b] over the reals. No quotient exists for a zero divisor; the
    model reports it as the error Python's own numbers raise (the binary64
    scalars of the program give an infinity or a nan instead, see
    [SIRFloat]). *)
Definition py_div (a b : R) : result R :=
  if decide (b = 0%R) then Raise ZeroDivisionError else Ok (a / b)%R.

(** [sir_equations(y, t, N, beta, gamma)], its expressions read over the
    real numbers. *)
Definition sir_equations (y : R * R * R) (t N beta gamma : R)
  : result (R * R * R) :=
  let '(S_, I_, R_) := y in
  dS_dt ← py_div (- beta * S_ * I_) N;
  q ← py_div (beta * S_ * I_) N;
  let dI_dt := (q - gamma * I_)%R in
  let dR_dt := (gamma * I_)%R in
  Ok (dS_dt, dI_dt, dR_dt).

(** A trajectory [(S, I, R)] whose derivative at every time is the one
    [sir_equations] returns there: an exact solution of the system. *)
Definition solves (N beta gamma : R) (S_ I_ R_ : R -> R) : Prop :=
  forall t : R, exists dS dI dR : R,
    sir_equations (S_ t, I_ t, R_ t) t N beta gamma = Ok (dS, dI, dR) /\
    derivable_pt_lim S_ t dS /\
    derivable_pt_lim I_ t dI /\
    derivable_pt_lim R_ t dR.

End SIR.

(** ** The SIR equations, in binary64 *)

Module SIRFloat.
Import PrimFloat.

(** [sir_equations(y, t, N, beta, gamma)] as the program computes it: every
    operation is rounded to binary64, and a division by zero gives an
    infinity or a nan. *)
Definition sir_equations (y : float * float * float)
    (t N beta gamma : float) : float * float * float :=
  let '(S_, I_, R_) := y in
  let dS_dt := (- beta * S_ * I_ / N)%float in
  let dI_dt := (beta * S_ * I_ / N - gamma * I_)%float in
  let dR_dt := (gamma * I_)%float in
  (dS_dt, dI_dt, dR_dt).

End SIRFloat.

(** ** The cellular automaton *)

Module CA.

(** [a < b] on floats, decided exactly. *)
Definition Qltb (a b : Q) : bool := negb (Qle_bool b a).

(** [np.random.rand()]: the generator is the fixed stream [draws] and the
    position [p] of the next draw; a call returns the draw and the new
    position. *)
Definition rand (draws : nat -> Q) (p : nat) : Q * nat := (draws p, S p).

(** [a[i] = v] with Python's bounds check. *)
Definition setitem {A : Type} (a : list A) (i : nat) (v : A)
  : result (list A) :=
  if i <? length a then Ok (<[i := v]> a) else Raise IndexError.

(** [(i - 1 + L) % L] and [(i + 1) % L], computed on integers. *)
Definition left_index (L i : nat) : nat :=
  Z.to_nat ((Z.of_nat i - 1 + Z.of_nat L) mod Z.of_nat L).

Definition right_index (L i : nat) : nat :=
  Z.to_nat ((Z.of_nat i + 1) mod Z.of_nat L).

(** Lines 54-61: how many of the two ring neighbours of cell [i] are
    Infected. *)
Definition infected_neighbors (L : nat) (grid : list Z) (i : nat) : nat :=
  let left_neighbor := grid !!! left_index L i in
  let right_neighbor := grid !!! right_index L i in
  let n := 0 in
  let n := if (left_neighbor =? INFECTED)%Z then n + 1 else n in
  let n := if (right_neighbor =? INFECTED)%Z then n + 1 else n in
  n.

Section Step.

Variables (L : nat) (gamma_ca k_infection : Q) (draws : nat -> Q).

(** The body of the loop over the cells (lines 51-72), acting on the new
    grid and the position in the random stream. The index [i] comes from
    [range(L)], so the writes are in range. The threshold
    [k_infection * infected_neighbors * prevalence] is the exact product,
    where the program rounds it to binary64. *)
Definition update_cell (grid : list Z) (prevalence : Q) (st : list Z * nat)
    (i : nat) : list Z * nat :=
  let '(new_grid, p) := st in
  if (grid !!! i =? SUSCEPTIBLE)%Z then
    let n := infected_neighbors L grid i in
    if 0 <? n then
      let prob_infection := (k_infection * inject_Z (Z.of_nat n) * prevalence)%Q in
      let '(r, p) := rand draws p in
      if Qltb r prob_infection then (<[i := INFECTED]> new_grid, p)
      else (new_grid, p)
    else (new_grid, p)
  else if (grid !!! i =? INFECTED)%Z then
    let '(r, p) := rand draws p in
    if Qltb r gamma_ca then (<[i := RECOVERED]> new_grid, p)
    else (new_grid, p)
  else (new_grid, p).

(** One time step (lines 47-72): [new_grid] starts as a copy of [grid] and
    the cells are visited in index order. *)
Definition update_grid (grid : list Z) (prevalence : Q) (p : nat)
  : list Z * nat :=
  fold_left (update_cell grid prevalence) (seq 0 L) (grid, p).

(** The body of the loop over time (lines 47-75) on the triple of the
    current grid, the history and the position in the random stream. *)
Definition time_step (I_sir : nat -> Q) (st : list Z * list (list Z) * nat)
    (t : nat) : list Z * list (list Z) * nat :=
  let '(grid, grid_history, p) := st in
  let '(new_grid, p) := update_grid grid (I_sir t) p in
  (new_grid, <[t := new_grid]> grid_history, p).

End Step.

(** [run_ca_simulation(L, time_steps, I_sir, gamma_ca, k_infection)], run
    on the random stream [draws]. [I_sir] is read at the indices
    [1 .. time_steps - 1] only; the compiled code reads it unchecked, so it
    is a total function of the index here. The two writes before the loop
    are out of range when [L] or [time_steps] is zero: the model reports
    them as the interpreter would, while the compiled code does not check
    them. The model stands for the program where [1 <= L] and
    [1 <= time_steps], which is what the theorems on a history assume. *)
Definition run_ca_simulation (L time_steps : nat) (I_sir : nat -> Q)
    (gamma_ca k_infection : Q) (draws : nat -> Q) : result (list (list Z)) :=
  let grid := replicate L SUSCEPTIBLE in
  grid ← setitem grid (L / 2) INFECTED;
  let grid_history := replicate time_steps (replicate L 0%Z) in
  grid_history ← setitem grid_history 0 grid;
  let '(_, grid_history, _) :=
    fold_left (time_step L gamma_ca k_infection draws I_sir)
              (seq 1 (time_steps - 1)) (grid, grid_history, 0) in
  Ok grid_history.

(** A stream of draws in [0, 1) for the examples: 0.1, 0.9, 0.1, ... *)
Definition example_draws (n : nat) : Q :=
  if Nat.even n then 1 # 10 else 9 # 10.

(** The cell [i] of row [t] of a history. *)
Definition cell (h : list (list Z)) (t i : nat) : Z := (h !!! t) !!! i.

(** The grid of lines 40-41. *)
Definition initial_grid (L : nat) : list Z :=
  <[L / 2 := INFECTED]> (replicate L SUSCEPTIBLE).

(** The rule of lines 52-72 read as a function of the one draw the cell
    may consume: the next state of cell [i] of [grid]. *)
Definition cell_next (L : nat) (gamma_ca k_infection : Q) (grid : list Z)
    (prevalence : Q) (i : nat) (r : Q) : Z :=
  if (grid !!! i =? SUSCEPTIBLE)%Z then
    let n := infected_neighbors L grid i in
    if 0 <? n then
      if Qltb r (k_infection * inject_Z (Z.of_nat n) * prevalence)%Q
      then INFECTED else SUSCEPTIBLE
    else SUSCEPTIBLE
  else if (grid !!! i =? INFECTED)%Z then
    if Qltb r gamma_ca then RECOVERED else INFECTED
  else grid !!! i.

(** The moves of the state machine of a cell, staying put included. *)
Definition allowed (old new : Z) : Prop :=
  (old = SUSCEPTIBLE /\ (new = SUSCEPTIBLE \/ new = INFECTED)) \/
  (old = INFECTED /\ (new = INFECTED \/ new = RECOVERED)) \/
  (old = RECOVERED /\ new = RECOVERED).

Definition is_state (c : Z) : Prop :=
  c = SUSCEPTIBLE \/ c = INFECTED \/ c = RECOVERED.

(** The number of Susceptible cells of a grid. *)
Definition count_susceptible (grid : list Z) : nat :=
  length (List.filter (fun c => (c =? SUSCEPTIBLE)%Z) grid).

(** What a run leaves in the history: the shape, the initial row, and each
    later row obtained from the row before by the rule of the cells, each
    cell with a draw of the stream. *)
Record history_ok (L time_steps : nat) (I_sir : nat -> Q)
    (gamma_ca k_infection : Q) (draws : nat -> Q) (h : list (list Z))
  : Prop := {
  hist_length : length h = time_steps;
  hist_rows : forall t, t < time_steps -> length (h !!! t) = L;
  hist_init : h !!! 0 = initial_grid L;
  hist_step : forall t i, 1 <= t < time_steps -> i < L ->
    exists q, cell h t i =
      cell_next L gamma_ca k_infection (h !!! (t - 1)) (I_sir t) i (draws q)
}.

End CA.

(** ** The callers: the start of the SIR run and the dimension series *)

Module Pipeline.


(** [ca_history[i, :]] in the interpreted caller: a row out of range is an
    [IndexError]. *)
Definition getrow (ca_history : list (list Z)) (i : nat)
  : result (list Z) :=
  match ca_history !! i with
  | Some row => Ok row
  | None => Raise IndexError
  end.

(** Line 204 of [main]:
    [[calculate_box_dimension(ca_history[i, :]) for i in range(time_steps)]] *)
Definition dimension_series (ca_history : list (list Z)) (time_steps : nat)
  : result (list R) :=
  mapM (fun i => row ← getrow ca_history i;
                 BoxDim.calculate_box_dimension row)
       (seq 0 time_steps).

(** Lines 201-204 of [main]: the automaton run on the normalised prevalence,
    then the dimension of every row of its history. *)
Definition ca_dimensions (L time_steps : nat) (I_normalized : nat -> Q)
    (gamma_ca k_infection : Q) (draws : nat -> Q) : result (list R) :=
  ca_history ← CA.run_ca_simulation L time_steps I_normalized gamma_ca
                                    k_infection draws;
  dimension_series ca_history time_steps.

(** Cell [i] of a ring of [L] cells is at most [d] steps away from the
    seed cell [L // 2], going either way round. *)
Definition within (L d i : nat) : Prop :=
  exists z : Z,
    (- Z.of_nat d <= z <= Z.of_nat d)%Z /\
    i = Z.to_nat ((Z.of_nat (L / 2) + z) mod Z.of_nat L).

End Pipeline.

(** ** The windows of the box count *)

Module Windows.

(** The number of offsets [range(0, L, size)] visits. *)
Definition windows (L size : nat) : nat := (L + size - 1) / size.

(** The test of line 103 on the [j]-th window of width [size]. *)
Definition window_active (grid_state : list Z) (size j : nat) : bool :=
  BoxDim.any_active
    (BoxDim.slice grid_state (j * size) (j * size + size)).

(** How many of the first [n] indices pass a test. *)
Definition cnt (P : nat -> bool) (n : nat) : nat :=
  length (List.filter P (seq 0 n)).

(** The count of the boxes of width 2^i, and the point of the regression
    that belongs to it: x = log(1 / 2^i), y = log(count). *)
Definition N_of (grid_state : list Z) (i : nat) : nat :=
  BoxDim.count_boxes grid_state (length grid_state) (2 ^ i).

Definition x_of (i : nat) : R := ln (1 / INR (2 ^ i)).

Definition y_of (grid_state : list Z) (i : nat) : R :=
  ln (INR (N_of grid_state i)).

End Windows.

(** * Properties *)

(** ** Box sizes *)

Module BoxSizes.
Import BoxDim.

Lemma pow2_lt_of_lt_log2 (L i : nat) : i < Nat.log2 L -> 2 ^ i < L.
Proof.
  intros Hi.
  assert (HL : 0 < L).
  { destruct L; [cbn in Hi; lia | lia]. }
  pose proof (Nat.log2_spec L HL) as [Hlo _].
  assert (2 ^ i < 2 ^ Nat.log2 L) by (apply Nat.pow_lt_mono_r; lia).
  lia.
Qed.

Lemma filter_true_on {A : Type} (f : A -> bool) (l : list A) :
  (forall a, In a l -> f a = true) -> List.filter f l = l.
Proof.
  induction l as [|a l IH]; intros H; cbn; [reflexivity|].
  rewrite (H a (or_introl eq_refl)). f_equal. apply IH.
  intros b Hb. apply H. now right.
Qed.

(** The guard [2**i < L] of the comprehension never removes anything. *)
Lemma gen_box_sizes_log2 (L : nat) :
  gen_box_sizes (Nat.log2 L) L = map (fun i => 2 ^ i) (seq 0 (Nat.log2 L)).
Proof.
  unfold gen_box_sizes. rewrite filter_true_on; [reflexivity|].
  intros i Hi. apply in_seq in Hi. apply Nat.ltb_lt.
  apply pow2_lt_of_lt_log2. lia.
Qed.

Lemma box_sizes_eq (L : nat) :
  1 <= L -> box_sizes L = Ok (map (fun i => 2 ^ i) (seq 0 (Nat.log2 L))).
Proof.
  intros HL. unfold box_sizes, int_log2.
  destruct (Nat.eqb_spec L 0) as [->|_]; [lia|].
  cbn. now rewrite gen_box_sizes_log2.
Qed.

Lemma generated_iff (L s : nat) :
  1 <= L -> generated L s <-> exists i, s = 2 ^ i /\ 2 * s <= L.
Proof.
  intros HL. unfold generated. rewrite (box_sizes_eq L HL). split.
  - intros (l & [= <-] & Hin). apply in_map_iff in Hin as (i & <- & Hi).
    apply in_seq in Hi. exists i. split; [reflexivity|].
    pose proof (Nat.log2_spec L ltac:(lia)) as [Hlo _].
    assert (2 ^ (S i) <= 2 ^ Nat.log2 L) by (apply Nat.pow_le_mono_r; lia).
    rewrite Nat.pow_succ_r' in *. lia.
  - intros (i & -> & Hle). eexists. split; [reflexivity|].
    apply in_map_iff. exists i. split; [reflexivity|]. apply in_seq.
    assert (S i <= Nat.log2 L); [|lia].
    apply Nat.log2_le_pow2; [lia|]. rewrite Nat.pow_succ_r'. lia.
Qed.

Lemma pow2_lt_pow2_double (i k : nat) : 2 ^ i < 2 ^ k <-> 2 * 2 ^ i <= 2 ^ k.
Proof.
  rewrite <- Nat.pow_succ_r'. split; intros H.
  - apply Nat.pow_le_mono_r; [lia|].
    apply Nat.pow_lt_mono_r_iff in H; lia.
  - assert (2 ^ i < 2 ^ S i) by (apply Nat.pow_lt_mono_r; lia). lia.
Qed.

End BoxSizes.

(** ** The automaton: the loops *)

Module CAFacts.
Import CA.

Section Step.

Variables (L : nat) (gamma_ca k_infection : Q) (draws : nat -> Q).

#[local] Abbreviation update_cell := (update_cell L gamma_ca k_infection draws).
#[local] Abbreviation update_grid := (update_grid L gamma_ca k_infection draws).
#[local] Abbreviation cell_next := (cell_next L gamma_ca k_infection).

Lemma insert_same (l : list Z) (i : nat) : <[i := l !!! i]> l = l.
Proof.
  destruct (decide (i < length l)) as [Hi|Hi].
  - apply list_insert_id. now apply list_lookup_lookup_total_lt.
  - apply list_insert_ge. lia.
Qed.

(** One visit of the loop writes the next state of the visited cell, read
    off the old grid, and consumes at most one draw. *)
Lemma update_cell_spec (grid new_grid : list Z) (prevalence : Q) (p i : nat) :
  new_grid !!! i = grid !!! i ->
  exists p', p <= p' /\
    update_cell grid prevalence (new_grid, p) i =
      (<[i := cell_next grid prevalence i (draws p)]> new_grid, p').
Proof.
  intros Hi. unfold CA.update_cell, CA.cell_next, rand.
  destruct (grid !!! i =? SUSCEPTIBLE)%Z eqn:Hs.
  - apply Z.eqb_eq in Hs. cbv zeta.
    destruct (0 <? infected_neighbors L grid i).
    + destruct (Qltb _ _); exists (S p); (split; [lia|]); [reflexivity|].
      now rewrite <- Hs, <- Hi, insert_same.
    + exists p. split; [lia|]. now rewrite <- Hs, <- Hi, insert_same.
  - destruct (grid !!! i =? INFECTED)%Z eqn:Hn.
    + apply Z.eqb_eq in Hn.
      destruct (Qltb _ _); exists (S p); (split; [lia|]); [reflexivity|].
      now rewrite <- Hn, <- Hi, insert_same.
    + exists p. split; [lia|]. now rewrite <- Hi, insert_same.
Qed.

(** The loop over the cells, stopped after the first [n] cells. *)
Lemma update_prefix_spec (grid : list Z) (prevalence : Q) (p n : nat) :
  n <= length grid ->
  exists new_grid p',
    fold_left (update_cell grid prevalence) (seq 0 n) (grid, p)
      = (new_grid, p') /\
    length new_grid = length grid /\
    (forall j, n <= j -> new_grid !!! j = grid !!! j) /\
    (forall j, j < n -> exists q,
        new_grid !!! j = cell_next grid prevalence j (draws q)).
Proof.
  induction n as [|n IH]; intros Hn.
  - exists grid, p. cbn.
    split; [reflexivity|]. split; [reflexivity|].
    split; [reflexivity | intros j Hj; lia].
  - destruct IH as (ng & p1 & Hfold & Hlen & Hrest & Hdone); [lia|].
    rewrite seq_S, fold_left_app, Hfold. cbn [fold_left Nat.add].
    destruct (update_cell_spec grid ng prevalence p1 n) as (p2 & _ & ->).
    { apply Hrest. lia. }
    eexists _, p2. split; [reflexivity|].
    split; [now rewrite length_insert|]. split.
    + intros j Hj. rewrite list_lookup_total_insert_ne by lia.
      apply Hrest. lia.
    + intros j Hj. destruct (decide (j = n)) as [->|Hne].
      * exists p1. apply list_lookup_total_insert_eq. lia.
      * rewrite list_lookup_total_insert_ne by lia. apply Hdone. lia.
Qed.

Lemma update_grid_spec (grid : list Z) (prevalence : Q) (p : nat) :
  length grid = L ->
  exists new_grid p',
    update_grid grid prevalence p = (new_grid, p') /\
    length new_grid = L /\
    (forall j, j < L -> exists q,
        new_grid !!! j = cell_next grid prevalence j (draws q)).
Proof.
  intros HL. unfold CA.update_grid.
  destruct (update_prefix_spec grid prevalence p L) as
    (ng & p' & Hfold & Hlen & _ & Hdone); [lia|].
  exists ng, p'. repeat split; [assumption | congruence | assumption].
Qed.

(** The loop over time, stopped after [m] steps: the rows up to [m] are
    written and chained by the rule of the cells, the others are untouched. *)
Lemma time_loop_spec (time_steps : nat) (I_sir : nat -> Q) (m : nat) :
  1 <= time_steps -> m <= time_steps - 1 ->
  let g0 := initial_grid L in
  let h0 := <[0 := g0]> (replicate time_steps (replicate L 0%Z)) in
  exists grid h p,
    fold_left (time_step L gamma_ca k_infection draws I_sir) (seq 1 m)
              (g0, h0, 0) = (grid, h, p) /\
    length h = time_steps /\
    h !!! m = grid /\
    (forall t, t < time_steps -> length (h !!! t) = L) /\
    h !!! 0 = g0 /\
    (forall t i, 1 <= t <= m -> i < L -> exists q,
        cell h t i = cell_next (h !!! (t - 1)) (I_sir t) i (draws q)).
Proof.
  intros Hts Hm g0 h0.
  assert (Hg0 : length g0 = L).
  { unfold g0, initial_grid. now rewrite length_insert, length_replicate. }
  assert (Hh0 : length h0 = time_steps).
  { unfold h0. now rewrite length_insert, length_replicate. }
  induction m as [|m IH].
  - exists g0, h0, 0. cbn [seq fold_left].
    assert (H0 : h0 !!! 0 = g0).
    { unfold h0. apply list_lookup_total_insert_eq.
      rewrite length_replicate. lia. }
    split; [reflexivity|]. split; [assumption|]. split; [assumption|].
    split; [|split; [assumption | intros t i Ht; lia]].
    intros t Ht. destruct t as [|t]; [now rewrite H0|].
    unfold h0. rewrite list_lookup_total_insert_ne by lia.
    rewrite lookup_total_replicate_2 by lia. apply length_replicate.
  - destruct IH as (grid & h & p & Hfold & Hlen & Hlast & Hrows & Hinit & Hch);
      [lia|].
    rewrite seq_S, fold_left_app, Hfold. cbn [fold_left Nat.add].
    unfold time_step at 1.
    destruct (update_grid_spec grid (I_sir (S m)) p) as (ng & p' & -> & Hng & Hnext).
    { rewrite <- Hlast. apply Hrows. lia. }
    exists ng, (<[S m := ng]> h), p'.
    split; [reflexivity|]. split; [now rewrite length_insert|].
    split; [apply list_lookup_total_insert_eq; lia|].
    split; [|split].
    + intros t Ht. destruct (decide (t = S m)) as [->|Hne].
      * rewrite list_lookup_total_insert_eq by lia. assumption.
      * rewrite list_lookup_total_insert_ne by lia. now apply Hrows.
    + now rewrite list_lookup_total_insert_ne by lia.
    + intros t i Ht Hi. unfold cell. destruct (decide (t = S m)) as [->|Hne].
      * rewrite list_lookup_total_insert_eq by lia.
        rewrite list_lookup_total_insert_ne by lia.
        replace (S m - 1) with m by lia. rewrite Hlast. now apply Hnext.
      * rewrite !list_lookup_total_insert_ne by lia.
        apply Hch; [lia | assumption].
Qed.

End Step.

(** A run on a non-empty ring with at least one time step returns a
    history, and the history is the one the rule of the cells describes. *)
Lemma run_ca_simulation_ok (L time_steps : nat) (I_sir : nat -> Q)
    (gamma_ca k_infection : Q) (draws : nat -> Q) :
  1 <= L -> 1 <= time_steps ->
  exists h,
    run_ca_simulation L time_steps I_sir gamma_ca k_infection draws = Ok h /\
    history_ok L time_steps I_sir gamma_ca k_infection draws h.
Proof.
  intros HL Hts. unfold run_ca_simulation, setitem.
  rewrite !length_replicate.
  assert (Hhalf : L / 2 < L) by (apply Nat.div_lt; lia).
  destruct (Nat.ltb_spec (L / 2) L) as [_|]; [|lia].
  destruct (Nat.ltb_spec 0 time_steps) as [_|]; [|lia].
  cbn [mbind result_bind].
  destruct (time_loop_spec L gamma_ca k_infection draws time_steps I_sir
              (time_steps - 1) Hts (le_n _))
    as (grid & h & p & Hfold & Hlen & _ & Hrows & Hinit & Hch).
  unfold initial_grid in Hfold. rewrite Hfold.
  exists h. split; [reflexivity|].
  split; [assumption | assumption | assumption |].
  intros t i Ht Hi. apply Hch; [lia | assumption].
Qed.

(** *** The rule of the cells *)

Lemma Qltb_lt (a b : Q) : Qltb a b = true <-> (a < b)%Q.
Proof.
  unfold Qltb. rewrite negb_true_iff, <- not_true_iff_false, Qle_bool_iff.
  split; [apply Qnot_le_lt | apply Qlt_not_le].
Qed.

Section Rule.

Variables (L : nat) (gamma_ca k_infection : Q).

#[local] Abbreviation cell_next := (cell_next L gamma_ca k_infection).

Lemma cell_next_allowed (grid : list Z) (prevalence : Q) (i : nat) (r : Q) :
  is_state (grid !!! i) ->
  allowed (grid !!! i) (cell_next grid prevalence i r).
Proof.
  unfold is_state, allowed, CA.cell_next.
  intros [H|[H|H]]; rewrite H; cbv zeta.
  - change (SUSCEPTIBLE =? SUSCEPTIBLE)%Z with true. cbv iota.
    repeat case_match; auto.
  - change (INFECTED =? SUSCEPTIBLE)%Z with false.
    change (INFECTED =? INFECTED)%Z with true. cbv iota.
    case_match; auto.
  - change (RECOVERED =? SUSCEPTIBLE)%Z with false.
    change (RECOVERED =? INFECTED)%Z with false. cbv iota. auto.
Qed.

Lemma allowed_is_state (old new : Z) : allowed old new -> is_state new.
Proof. unfold allowed, is_state. intuition auto. Qed.

Lemma allowed_le (old new : Z) : allowed old new -> (old <= new)%Z.
Proof.
  unfold allowed, SUSCEPTIBLE, INFECTED, RECOVERED. intuition lia.
Qed.

Lemma allowed_recovered (new : Z) : allowed RECOVERED new -> new = RECOVERED.
Proof.
  unfold allowed, SUSCEPTIBLE, INFECTED, RECOVERED. intuition lia.
Qed.

(** A draw in [0, 1) is below every threshold that is at least 1. *)
Lemma cell_next_saturated (grid : list Z) (prevalence : Q) (i : nat) (r : Q) :
  grid !!! i = SUSCEPTIBLE ->
  0 < infected_neighbors L grid i ->
  (1 <= k_infection * inject_Z (Z.of_nat (infected_neighbors L grid i))
        * prevalence)%Q ->
  (r < 1)%Q ->
  cell_next grid prevalence i r = INFECTED.
Proof.
  intros Hs Hn Hp Hr. unfold CA.cell_next. rewrite Hs. cbv zeta.
  change (SUSCEPTIBLE =? SUSCEPTIBLE)%Z with true. cbv iota.
  destruct (Nat.ltb_spec 0 (infected_neighbors L grid i)) as [_|]; [|lia].
  assert (Hlt : Qltb r (k_infection
            * inject_Z (Z.of_nat (infected_neighbors L grid i))
            * prevalence)%Q = true).
  { apply Qltb_lt. eapply Qlt_le_trans; eassumption. }
  now rewrite Hlt.
Qed.

End Rule.

(** *** Consequences for a history *)

Lemma initial_grid_lookup (L i : nat) :
  i < L ->
  initial_grid L !!! i = if decide (i = L / 2) then INFECTED else SUSCEPTIBLE.
Proof.
  intros Hi. unfold initial_grid. destruct (decide (i = L / 2)) as [->|Hne].
  - apply list_lookup_total_insert_eq. now rewrite length_replicate.
  - rewrite list_lookup_total_insert_ne by congruence.
    now apply lookup_total_replicate_2.
Qed.

Section History.

Context {L time_steps : nat} {I_sir : nat -> Q} {gamma_ca k_infection : Q}
        {draws : nat -> Q} {h : list (list Z)}.
Hypothesis Hok : history_ok L time_steps I_sir gamma_ca k_infection draws h.

Lemma history_states (t i : nat) :
  t < time_steps -> i < L -> is_state (cell h t i).
Proof.
  induction t as [|t IH]; intros Ht Hi.
  - unfold cell. rewrite (hist_init _ _ _ _ _ _ _ Hok).
    rewrite initial_grid_lookup by assumption. unfold is_state.
    destruct (decide _); auto.
  - destruct (hist_step _ _ _ _ _ _ _ Hok (S t) i) as [q Hq]; [lia | lia |].
    rewrite Hq. replace (S t - 1) with t by lia.
    eapply allowed_is_state, cell_next_allowed. apply IH; lia.
Qed.

Lemma history_allowed (t i : nat) :
  S t < time_steps -> i < L -> allowed (cell h t i) (cell h (S t) i).
Proof.
  intros Ht Hi.
  destruct (hist_step _ _ _ _ _ _ _ Hok (S t) i) as [q Hq]; [lia | lia |].
  rewrite Hq. replace (S t - 1) with t by lia.
  apply cell_next_allowed. apply history_states; lia.
Qed.

Lemma history_recovered_stays (i t d : nat) :
  i < L -> t + d < time_steps ->
  cell h t i = RECOVERED -> cell h (t + d) i = RECOVERED.
Proof.
  intros Hi. induction d as [|d IH]; intros Ht Hr.
  - now rewrite Nat.add_0_r.
  - replace (t + S d) with (S (t + d)) in * by lia.
    apply allowed_recovered. rewrite <- IH; [|lia|assumption].
    apply history_allowed; lia.
Qed.

Lemma history_all_states :
  Forall (fun row => length row = L /\ Forall is_state row) h.
Proof.
  apply (Forall_lookup_total_2 _ h). intros t Ht.
  rewrite (hist_length _ _ _ _ _ _ _ Hok) in Ht.
  pose proof (hist_rows _ _ _ _ _ _ _ Hok t Ht) as Hrow.
  split; [assumption|].
  apply (Forall_lookup_total_2 _ (h !!! t)). intros i Hi. rewrite Hrow in Hi.
  now apply history_states.
Qed.

End History.

(** Fewer or as many Susceptible cells in a grid whose Susceptible cells
    were all Susceptible in the other. *)
Lemma count_susceptible_mono (old new : list Z) :
  Forall2 (fun a b => b = SUSCEPTIBLE -> a = SUSCEPTIBLE) old new ->
  count_susceptible new <= count_susceptible old.
Proof.
  unfold count_susceptible. induction 1 as [|a b old new Hab _ IH]; cbn.
  - lia.
  - destruct (Z.eqb_spec b SUSCEPTIBLE) as [Hb|Hb].
    + rewrite (Hab Hb), Z.eqb_refl. cbn. lia.
    + destruct (a =? SUSCEPTIBLE)%Z; cbn; lia.
Qed.

End CAFacts.

(** ** The dimension estimate: the shape of a call *)

Module BoxDimFacts.
Import BoxDim.

Lemma filter_length_bound {A : Type} (f : A -> bool) (l : list A) :
  length (List.filter f l) <= length l.
Proof.
  induction l as [|a l IH]; cbn; [lia|]. destruct (f a); cbn; lia.
Qed.

Lemma active_cells_bound (g : list Z) :
  length (active_cells_indices g) <= length g.
Proof.
  unfold active_cells_indices.
  etransitivity; [apply filter_length_bound|]. now rewrite length_seq.
Qed.

(** The regression step only ever answers with a number. *)
Lemma regression_slope_returns (x y : list R) :
  exists r, regression_slope x y = Ok r.
Proof.
  unfold regression_slope, linregress.
  repeat case_match; simplify_eq; eauto.
Qed.

Lemma regression_slope_degenerate (x y : list R) :
  linregress x y = Raise ValueError \/ linregress x y = Ok NaN ->
  regression_slope x y = Ok 0%R.
Proof. unfold regression_slope. intros [-> | ->]; reflexivity. Qed.

(** With two active cells or more the grid is not empty, the logarithm
    is taken, and the call is the chain of its three guards followed by
    the regression. *)
Lemma calculate_box_dimension_unfold (g : list Z) :
  calculate_box_dimension g =
    if length (active_cells_indices g) <? 2 then Ok 0%R
    else if length (sizes_of g) =? 0 then Ok 0%R
    else if length (valid_of g) <? 2 then Ok 0%R
    else regression_slope
           (log_inv_sizes (select (sizes_of g) (valid_of g)))
           (log_counts_of (select (counts_of g) (valid_of g))).
Proof.
  unfold calculate_box_dimension.
  destruct (Nat.ltb_spec (length (active_cells_indices g)) 2) as [|Hact];
    [reflexivity|].
  pose proof (active_cells_bound g) as Hle.
  unfold int_log2. destruct (Nat.eqb_spec (length g) 0) as [H0|_]; [lia|].
  reflexivity.
Qed.

Lemma calculate_box_dimension_returns (g : list Z) :
  exists r, calculate_box_dimension g = Ok r.
Proof.
  rewrite calculate_box_dimension_unfold.
  repeat case_match; eauto using regression_slope_returns.
Qed.

Lemma no_active_cells (g : list Z) :
  Forall (fun c => c = SUSCEPTIBLE) g -> active_cells_indices g = [].
Proof.
  intros Hall. unfold active_cells_indices.
  rewrite List.Forall_forall in Hall.
  induction (seq 0 (length g)) as [|i l IH]; [reflexivity|]. cbn.
  assert (Hi : active (nth i g 0%Z) = false).
  { destruct (Nat.lt_ge_cases i (length g)) as [Hlt|Hge].
    - rewrite (Hall (nth i g 0%Z)); [reflexivity|]. now apply nth_In.
    - now rewrite nth_overflow. }
  now rewrite Hi.
Qed.

Lemma calculate_box_dimension_degenerate (g : list Z) :
  degenerate g -> calculate_box_dimension g = Ok 0%R.
Proof.
  rewrite calculate_box_dimension_unfold. unfold degenerate, regression_of.
  intros Hd.
  destruct (Nat.ltb_spec (length (active_cells_indices g)) 2); [reflexivity|].
  destruct (Nat.eqb_spec (length (sizes_of g)) 0) as [|Hs]; [reflexivity|].
  destruct (Nat.ltb_spec (length (valid_of g)) 2); [reflexivity|].
  destruct Hd as [Hd|[Hd|[Hd|Hd]]]; [lia | | lia |].
  - rewrite Hd in Hs. cbn in Hs. lia.
  - now apply regression_slope_degenerate.
Qed.

(** The logarithms of lines 116-117 are taken of positive numbers only:
    the sizes are powers of two and the counts kept are positive. *)
Lemma regression_inputs_positive (g : list Z) :
  Forall (fun s => 0 < s) (select (sizes_of g) (valid_of g)) /\
  Forall (fun c => 0 < c) (select (counts_of g) (valid_of g)).
Proof.
  assert (Hv : forall i, In i (valid_of g) ->
                 i < length (sizes_of g) /\ 0 < nth i (counts_of g) 0).
  { intros i Hi. unfold valid_of, valid_indices in Hi.
    apply filter_In in Hi as [Hi Hpos]. apply in_seq in Hi.
    apply Nat.ltb_lt in Hpos. unfold counts_of in Hi at 1.
    rewrite List.length_map in Hi. split; [lia | assumption]. }
  unfold select. split; apply List.Forall_forall; intros c Hc;
    apply in_map_iff in Hc as (i & <- & Hi); destruct (Hv i Hi) as [Hlt Hpos].
  - assert (Hin : In (nth i (sizes_of g) 0) (sizes_of g)) by now apply nth_In.
    unfold sizes_of in Hin at 2. unfold gen_box_sizes in Hin.
    apply in_map_iff in Hin as (j & <- & _).
    apply Nat.neq_0_lt_0, Nat.pow_nonzero. lia.
  - assumption.
Qed.

(** *** Only the pattern of active cells matters *)

Lemma pattern_of_active_cells (g1 g2 : list Z) :
  length g1 = length g2 ->
  (forall i, i < length g1 ->
     (0 < nth i g1 0)%Z <-> (0 < nth i g2 0)%Z) ->
  map active g1 = map active g2.
Proof.
  intros Hlen Hact.
  apply (nth_ext _ _ (active 0%Z) (active 0%Z)).
  - now rewrite !List.length_map.
  - intros i Hi. rewrite List.length_map in Hi. rewrite !map_nth.
    specialize (Hact i Hi). unfold active.
    destruct (Z.ltb_spec 0 (nth i g1 0%Z)), (Z.ltb_spec 0 (nth i g2 0%Z));
      intuition lia.
Qed.

Lemma active_cells_pattern (g1 g2 : list Z) :
  map active g1 = map active g2 ->
  active_cells_indices g1 = active_cells_indices g2.
Proof.
  intros Hp. unfold active_cells_indices.
  assert (Hlen : length g1 = length g2).
  { rewrite <- (List.length_map active g1), Hp. apply List.length_map. }
  rewrite Hlen. apply List.filter_ext. intros i.
  now rewrite <- !(map_nth active), Hp.
Qed.

Lemma existsb_active_map (l : list Z) :
  existsb active l = existsb (fun b : bool => b) (map active l).
Proof. induction l as [|c l IH]; cbn; [reflexivity | now rewrite IH]. Qed.

Lemma any_active_slice (g : list Z) (i j : nat) :
  any_active (slice g i j) =
    existsb (fun b : bool => b) (take (j - i) (drop i (map active g))).
Proof.
  unfold any_active, slice.
  now rewrite existsb_active_map, skipn_map, firstn_map.
Qed.

Lemma fold_left_pointwise {A B : Type} (f f' : A -> B -> A) (l : list B) :
  (forall a b, f a b = f' a b) ->
  forall a, fold_left f l a = fold_left f' l a.
Proof.
  intros Hff. induction l as [|b l IH]; intros a; cbn; [reflexivity|].
  now rewrite Hff, IH.
Qed.

Lemma count_boxes_pattern (g1 g2 : list Z) (L size : nat) :
  map active g1 = map active g2 ->
  count_boxes g1 L size = count_boxes g2 L size.
Proof.
  intros Hp. unfold count_boxes. apply fold_left_pointwise.
  intros count i. now rewrite !any_active_slice, Hp.
Qed.

Lemma calculate_box_dimension_pattern (g1 g2 : list Z) :
  map active g1 = map active g2 ->
  calculate_box_dimension g1 = calculate_box_dimension g2.
Proof.
  intros Hp.
  assert (Hlen : length g1 = length g2).
  { rewrite <- (List.length_map active g1), Hp. apply List.length_map. }
  pose proof (active_cells_pattern g1 g2 Hp) as Hact.
  assert (Hs : sizes_of g1 = sizes_of g2) by (unfold sizes_of; now rewrite Hlen).
  assert (Hc : counts_of g1 = counts_of g2).
  { unfold counts_of. rewrite Hs, Hlen. apply map_ext.
    intros size. now apply count_boxes_pattern. }
  assert (Hv : valid_of g1 = valid_of g2) by (unfold valid_of; now rewrite Hc).
  rewrite !calculate_box_dimension_unfold. now rewrite Hact, Hs, Hc, Hv.
Qed.

End BoxDimFacts.

(** ** The regression *)

Module RegressionFacts.
Import BoxDim.
#[local] Open Scope R_scope.

Lemma Rsum_cons (a : R) (x : list R) : Rsum (a :: x) = a + Rsum x.
Proof. reflexivity. Qed.

Lemma Rsum_shift (c : R) (x : list R) :
  Rsum (map (fun a => c + a) x) = INR (length x) * c + Rsum x.
Proof.
  induction x as [|a x IH].
  - cbn. ring.
  - rewrite map_cons, !Rsum_cons, IH. cbn [length]. rewrite S_INR.
    cbv beta. ring.
Qed.

Lemma mean_shift (c : R) (x : list R) :
  x <> [] -> mean (map (fun a => c + a) x) = c + mean x.
Proof.
  intros Hx. unfold mean. rewrite Rsum_shift, List.length_map.
  assert (INR (length x) <> 0).
  { apply not_0_INR. destruct x; [congruence | cbn; lia]. }
  field. assumption.
Qed.

Lemma zip_with_map_r {A B C : Type} (f : A -> B -> C) (g : A -> B)
    (x : list A) :
  zip_with f x (map g x) = map (fun a => f a (g a)) x.
Proof. induction x as [|a x IH]; cbn; [reflexivity | now rewrite IH]. Qed.

Lemma zip_with_diag {A C : Type} (f : A -> A -> C) (x : list A) :
  zip_with f x x = map (fun a => f a a) x.
Proof. induction x as [|a x IH]; cbn; [reflexivity | now rewrite IH]. Qed.

(** Adding a constant to the y values leaves the covariance with x as the
    variance of x. *)
Lemma cov_shift (c : R) (x : list R) :
  x <> [] -> cov x (map (fun a => c + a) x) = cov x x.
Proof.
  intros Hx. unfold cov. rewrite mean_shift by assumption.
  rewrite zip_with_map_r, zip_with_diag. f_equal.
  apply map_ext. intros a. ring.
Qed.

Lemma fold_left_Rmax_ge (l : list R) (a : R) :
  a <= fold_left Rmax l a /\ forall b, In b l -> b <= fold_left Rmax l a.
Proof.
  revert a. induction l as [|c l IH]; intros a; cbn.
  - split; [lra | tauto].
  - destruct (IH (Rmax a c)) as [H1 H2].
    pose proof (Rmax_l a c). pose proof (Rmax_r a c).
    split; [lra|]. intros b [<-|Hb]; [lra | now apply H2].
Qed.

Lemma fold_left_Rmin_le (l : list R) (a : R) :
  fold_left Rmin l a <= a /\ forall b, In b l -> fold_left Rmin l a <= b.
Proof.
  revert a. induction l as [|c l IH]; intros a; cbn.
  - split; [lra | tauto].
  - destruct (IH (Rmin a c)) as [H1 H2].
    pose proof (Rmin_l a c). pose proof (Rmin_r a c).
    split; [lra|]. intros b [<-|Hb]; [lra | now apply H2].
Qed.

Lemma amax_ge (x : list R) (a : R) : In a x -> a <= amax x.
Proof.
  destruct x as [|b x]; [intros []|]. cbn [amax].
  destruct (fold_left_Rmax_ge x b) as [H1 H2].
  intros [<-|Ha]; [assumption | now apply H2].
Qed.

Lemma amin_le (x : list R) (a : R) : In a x -> amin x <= a.
Proof.
  destruct x as [|b x]; [intros []|]. cbn [amin].
  destruct (fold_left_Rmin_le x b) as [H1 H2].
  intros [<-|Ha]; [assumption | now apply H2].
Qed.

Lemma Rsum_squares_zero (m : R) (x : list R) :
  Rsum (map (fun a => (a - m) * (a - m)) x) = 0 ->
  forall a, In a x -> a = m.
Proof.
  induction x as [|b x IH]; intros Hsum a Ha; [destruct Ha|].
  rewrite map_cons, Rsum_cons in Hsum. cbv beta in Hsum.
  assert (Hnn : 0 <= Rsum (map (fun a => (a - m) * (a - m)) x)).
  { clear. induction x as [|c x IH]; [cbn; lra|].
    rewrite map_cons, Rsum_cons. cbv beta.
    pose proof (Rle_0_sqr (c - m)) as Hsq. unfold Rsqr in Hsq.
    set (rest := Rsum _) in *. lra. }
  pose proof (Rle_0_sqr (b - m)) as Hsq. unfold Rsqr in Hsq.
  set (rest := Rsum _) in *.
  assert (Hb : (b - m) * (b - m) = 0) by lra.
  destruct Ha as [<-|Ha].
  - apply Rmult_integral in Hb. lra.
  - apply IH; [fold rest; lra | assumption].
Qed.

(** A variance of zero means that all the values are the same. *)
Lemma cov_self_zero (x : list R) :
  x <> [] -> cov x x = 0 -> forall a, In a x -> a = mean x.
Proof.
  intros Hx Hc. apply Rsum_squares_zero. revert Hc.
  unfold cov. rewrite zip_with_diag. unfold mean at 1.
  rewrite List.length_map.
  assert (Hn : INR (length x) <> 0).
  { apply not_0_INR. destruct x; [congruence | cbn; lia]. }
  intros Hq. apply (Rmult_eq_compat_r (INR (length x))) in Hq.
  unfold Rdiv in Hq. rewrite Rmult_assoc, Rinv_l, Rmult_1_r, Rmult_0_l in Hq
    by assumption.
  exact Hq.
Qed.

(** When y is x plus a constant and x has two different values, the
    regression succeeds and the slope is 1. *)
Lemma linregress_shift (c : R) (x : list R) :
  (exists a b, In a x /\ In b x /\ a < b) ->
  linregress x (map (fun a => c + a) x) = Ok (Num 1).
Proof.
  intros (a & b & Ha & Hb & Hab).
  assert (Hx : x <> []) by (intros ->; destruct Ha).
  assert (Hlen : (0 < length x)%nat) by (destruct x; [congruence | cbn; lia]).
  unfold linregress. rewrite List.length_map.
  destruct (Nat.eqb_spec (length x) 0) as [|_]; [lia|]. cbn [orb].
  assert (Hmm : amax x <> amin x).
  { pose proof (amax_ge x b Hb). pose proof (amin_le x a Ha). lra. }
  rewrite (bool_decide_eq_false_2 _ Hmm), andb_false_r.
  rewrite Nat.eqb_refl. cbn [negb]. cbv zeta.
  assert (Hv : cov x x <> 0).
  { intros H0. pose proof (cov_self_zero x Hx H0) as Heq.
    rewrite (Heq a Ha), (Heq b Hb) in Hab. lra. }
  rewrite (bool_decide_eq_false_2 _ Hv), cov_shift by assumption.
  do 2 f_equal. now field.
Qed.

End RegressionFacts.

(** ** The dimension estimate on a fully active grid *)

Module FullGrid.
Import BoxDim BoxSizes BoxDimFacts RegressionFacts.

Lemma infected_or_recovered_active (g : list Z) :
  Forall (fun c => c = INFECTED \/ c = RECOVERED) g -> all_active g.
Proof.
  intros H. eapply Forall_impl; [exact H|]. intros c [-> | ->]; reflexivity.
Qed.

Lemma all_active_nth (g : list Z) (i : nat) :
  all_active g -> i < length g -> active (nth i g 0%Z) = true.
Proof.
  intros Hall Hi. unfold all_active in Hall.
  rewrite List.Forall_forall in Hall. apply Hall. now apply nth_In.
Qed.

Lemma active_cells_full (g : list Z) :
  all_active g -> active_cells_indices g = seq 0 (length g).
Proof.
  intros Hall. unfold active_cells_indices. apply filter_true_on.
  intros i Hi. apply in_seq in Hi. apply all_active_nth; [assumption | lia].
Qed.

Lemma valid_indices_all (counts : list nat) :
  (forall c, In c counts -> 0 < c) ->
  valid_indices counts = seq 0 (length counts).
Proof.
  intros Hpos. unfold valid_indices. apply filter_true_on.
  intros i Hi. apply in_seq in Hi. apply Nat.ltb_lt, Hpos, nth_In. lia.
Qed.

Lemma length_valid_indices (counts : list nat) :
  length (valid_indices counts) <= length counts.
Proof.
  unfold valid_indices. etransitivity; [apply filter_length_bound|].
  now rewrite length_seq.
Qed.

Lemma select_all (l : list nat) : select l (seq 0 (length l)) = l.
Proof.
  unfold select. apply (nth_ext _ _ (nth 0 l 0) 0).
  - now rewrite List.length_map, length_seq.
  - intros n Hn. rewrite List.length_map, length_seq in Hn.
    rewrite (map_nth (fun i => nth i l 0) (seq 0 (length l)) 0 n).
    now rewrite seq_nth.
Qed.

(** Fewer than two box sizes for a grid shorter than 4: the estimate of
    such a grid is 0.0. *)
Lemma short_grid_degenerate (g : list Z) : length g < 4 -> degenerate g.
Proof.
  intros Hlen. right. right. left.
  unfold valid_of. eapply Nat.le_lt_trans; [apply length_valid_indices|].
  unfold counts_of, sizes_of. rewrite List.length_map, gen_box_sizes_log2.
  rewrite List.length_map, length_seq.
  destruct (length g) as [|[|[|[|n]]]]; cbn; lia.
Qed.

(** *** Counting the windows *)

Lemma fold_count_all {A : Type} (P : A -> bool) (l : list A) (c0 : nat) :
  (forall i, In i l -> P i = true) ->
  fold_left (fun count i => if P i then count + 1 else count) l c0
    = c0 + length l.
Proof.
  revert c0. induction l as [|a l IH]; intros c0 Hall; cbn; [lia|].
  rewrite (Hall a (or_introl eq_refl)), IH; [lia|].
  intros i Hi. apply Hall. now right.
Qed.

Lemma any_active_slice_full (g : list Z) (i size : nat) :
  all_active g -> i < length g -> 0 < size ->
  any_active (slice g i (i + size)) = true.
Proof.
  intros Hall Hi Hs. unfold any_active, slice.
  replace (i + size - i) with (S (size - 1)) by lia.
  pose proof (Forall_drop _ i g Hall) as Hd.
  pose proof (length_drop g i) as Hlen.
  destruct (drop i g) as [|c rest]; [cbn in Hlen; lia|].
  cbn. apply Forall_cons_1 in Hd as [Hc _]. now rewrite Hc.
Qed.

Lemma windows_of_pow2 (k i : nat) :
  i <= k -> (2 ^ k + 2 ^ i - 1) / 2 ^ i = 2 ^ (k - i).
Proof.
  intros Hi.
  assert (Hpos : 0 < 2 ^ i) by (apply Nat.neq_0_lt_0, Nat.pow_nonzero; lia).
  replace (2 ^ k) with (2 ^ (k - i) * 2 ^ i)
    by (rewrite <- Nat.pow_add_r; f_equal; lia).
  replace (2 ^ (k - i) * 2 ^ i + 2 ^ i - 1)
    with (2 ^ (k - i) * 2 ^ i + (2 ^ i - 1)) by lia.
  rewrite Nat.div_add_l by lia. rewrite Nat.div_small by lia. lia.
Qed.

(** On a fully active grid of length 2^k every window of width 2^i holds
    an active cell: the count is the number of windows. *)
Lemma count_boxes_full (g : list Z) (k i : nat) :
  all_active g -> length g = 2 ^ k -> i <= k ->
  count_boxes g (2 ^ k) (2 ^ i) = 2 ^ (k - i).
Proof.
  intros Hall Hlen Hi.
  assert (Hpos : 0 < 2 ^ i) by (apply Nat.neq_0_lt_0, Nat.pow_nonzero; lia).
  unfold count_boxes, range_step. rewrite windows_of_pow2 by assumption.
  rewrite (fold_count_all (fun j => any_active (slice g j (j + 2 ^ i)))).
  - now rewrite List.length_map, length_seq.
  - intros j Hj. apply in_map_iff in Hj as (q & <- & Hq). apply in_seq in Hq.
    apply any_active_slice_full; [assumption | | assumption].
    rewrite Hlen. replace (2 ^ k) with (2 ^ (k - i) * 2 ^ i)
      by (rewrite <- Nat.pow_add_r; f_equal; lia).
    apply Nat.mul_lt_mono_pos_r; lia.
Qed.

Section Pow2Grid.

Variables (g : list Z) (k : nat).
Hypothesis Hall : all_active g.
Hypothesis Hlen : length g = 2 ^ k.

Lemma sizes_of_full : sizes_of g = map (fun i => 2 ^ i) (seq 0 k).
Proof.
  unfold sizes_of. rewrite gen_box_sizes_log2, Hlen.
  now rewrite Nat.log2_pow2 by lia.
Qed.

Lemma counts_of_full : counts_of g = map (fun i => 2 ^ (k - i)) (seq 0 k).
Proof.
  unfold counts_of. rewrite sizes_of_full, Hlen, map_map.
  apply map_ext_in. intros i Hi. apply in_seq in Hi.
  apply count_boxes_full; [assumption | assumption | lia].
Qed.

Lemma valid_of_full : valid_of g = seq 0 (length (counts_of g)).
Proof.
  unfold valid_of. apply valid_indices_all. rewrite counts_of_full.
  intros c Hc. apply in_map_iff in Hc as (i & <- & _).
  apply Nat.neq_0_lt_0, Nat.pow_nonzero. lia.
Qed.

Lemma length_counts_of_full : length (counts_of g) = k.
Proof. now rewrite counts_of_full, List.length_map, length_seq. Qed.

Lemma length_sizes_of_full : length (sizes_of g) = k.
Proof. now rewrite sizes_of_full, List.length_map, length_seq. Qed.

End Pow2Grid.

#[local] Open Scope R_scope.

Lemma INR_pow2_pos (n : nat) : 0 < INR (2 ^ n).
Proof. apply lt_0_INR, Nat.neq_0_lt_0, Nat.pow_nonzero. lia. Qed.

Lemma ln_inv_size (n : nat) : ln (1 / INR (2 ^ n)) = - ln (INR (2 ^ n)).
Proof.
  unfold Rdiv. rewrite Rmult_1_l. apply ln_Rinv, INR_pow2_pos.
Qed.

(** log(count) = log(L) + log(1/size) on a fully active grid. *)
Lemma ln_count_full (k i : nat) :
  (i <= k)%nat ->
  ln (INR (2 ^ (k - i))) = ln (INR (2 ^ k)) + ln (1 / INR (2 ^ i)).
Proof.
  intros Hi. rewrite ln_inv_size.
  replace (2 ^ k)%nat with (2 ^ (k - i) * 2 ^ i)%nat
    by (rewrite <- Nat.pow_add_r; f_equal; lia).
  rewrite mult_INR, ln_mult by apply INR_pow2_pos. ring.
Qed.

Lemma calculate_box_dimension_full (g : list Z) (k : nat) :
  all_active g -> length g = (2 ^ k)%nat -> (2 <= k)%nat ->
  calculate_box_dimension g = Ok 1.
Proof.
  intros Hall Hlen Hk.
  assert (H4 : (4 <= 2 ^ k)%nat).
  { change 4%nat with (2 ^ 2)%nat. apply Nat.pow_le_mono_r; lia. }
  rewrite calculate_box_dimension_unfold.
  rewrite active_cells_full, length_seq, Hlen by assumption.
  destruct (Nat.ltb_spec (2 ^ k) 2) as [|_]; [lia|].
  rewrite (length_sizes_of_full g k Hlen).
  destruct (Nat.eqb_spec k 0) as [|_]; [lia|].
  rewrite (valid_of_full g k Hall Hlen), length_seq.
  rewrite (length_counts_of_full g k Hall Hlen).
  destruct (Nat.ltb_spec k 2) as [|_]; [lia|].
  rewrite <- (length_sizes_of_full g k Hlen) at 1. rewrite select_all.
  rewrite <- (length_counts_of_full g k Hall Hlen). rewrite select_all.
  rewrite (sizes_of_full g k Hlen), (counts_of_full g k Hall Hlen).
  unfold log_inv_sizes, log_counts_of. rewrite !map_map.
  set (x := map (fun i => ln (1 / INR (2 ^ i))) (seq 0 k)).
  replace (map (fun i => ln (INR (2 ^ (k - i)))) (seq 0 k))
    with (map (fun a => ln (INR (2 ^ k)) + a) x).
  2:{ unfold x. rewrite map_map. apply map_ext_in. intros i Hi.
      apply in_seq in Hi. symmetry. apply ln_count_full. lia. }
  unfold regression_slope. rewrite linregress_shift; [reflexivity|].
  exists (ln (1 / INR (2 ^ 1))), (ln (1 / INR (2 ^ 0))).
  split; [|split].
  - unfold x. apply in_map_iff. exists 1%nat. split; [reflexivity|].
    apply in_seq. lia.
  - unfold x. apply in_map_iff. exists 0%nat. split; [reflexivity|].
    apply in_seq. lia.
  - apply ln_increasing; cbn; lra.
Qed.

End FullGrid.

(** ** The embedding on small inputs *)

Example box_sizes_5 : BoxDim.box_sizes 5 = Ok [1; 2].
Proof. reflexivity. Qed.

Example count_boxes_5 :
  map (BoxDim.count_boxes [1; 1; 0; 0; 2]%Z 5) [1; 2] = [3; 2].
Proof. reflexivity. Qed.

Example range_step_5_2 : BoxDim.range_step 5 2 = [0; 2; 4].
Proof. reflexivity. Qed.

Example run_8_3 :
  CA.run_ca_simulation 8 3 (fun _ => 1%Q) (1 # 2) 1 CA.example_draws =
    Ok [[0; 0; 0; 0; 1; 0; 0; 0];
        [0; 0; 0; 1; 1; 1; 0; 0];
        [0; 0; 1; 2; 1; 2; 1; 0]]%Z.
Proof. vm_compute. reflexivity. Qed.

(** * The claims about the automaton *)

Section AutomatonClaims.
Import CA CAFacts.

Variables (L time_steps : nat) (I_sir : nat -> Q) (gamma_ca k_infection : Q)
          (draws : nat -> Q).

(** C5. For L >= 2 and time_steps >= 1 the run returns a history whose row 0
    has length L, holds Infected at index L // 2 and Susceptible at every
    other index, so that index L // 2 is the one Infected cell, whatever
    the draws and the other parameters are. *)
Theorem initial_row_single_infected :
  2 <= L -> 1 <= time_steps ->
  exists h,
    run_ca_simulation L time_steps I_sir gamma_ca k_infection draws = Ok h /\
    length (h !!! 0) = L /\
    cell h 0 (L / 2) = INFECTED /\
    (forall i, i < L -> i <> L / 2 -> cell h 0 i = SUSCEPTIBLE) /\
    (forall i, i < L -> cell h 0 i = INFECTED <-> i = L / 2).
Proof.
  intros HL Hts.
  destruct (run_ca_simulation_ok L time_steps I_sir gamma_ca k_infection draws)
    as (h & Hrun & Hok); [lia | lia |].
  exists h. split; [assumption|].
  pose proof (hist_init _ _ _ _ _ _ _ Hok) as Hinit.
  assert (Hhalf : L / 2 < L) by (apply Nat.div_lt; lia).
  unfold cell. rewrite Hinit. split; [|split; [|split]].
  - unfold initial_grid. now rewrite length_insert, length_replicate.
  - rewrite initial_grid_lookup by assumption. now rewrite decide_True.
  - intros i Hi Hne. rewrite initial_grid_lookup by assumption.
    now rewrite decide_False.
  - intros i Hi. rewrite initial_grid_lookup by assumption.
    destruct (decide (i = L / 2)); [tauto|]. split; [discriminate | tauto].
Qed.

(** C6. In a run that returns a history, a cell recorded as Recovered at
    step t is Recovered at every later step t', whatever the draws are. *)
Theorem recovered_is_absorbing :
  1 <= L -> 1 <= time_steps ->
  exists h,
    run_ca_simulation L time_steps I_sir gamma_ca k_infection draws = Ok h /\
    forall i t t', i < L -> t < t' -> t' < time_steps ->
      cell h t i = RECOVERED -> cell h t' i = RECOVERED.
Proof.
  intros HL Hts.
  destruct (run_ca_simulation_ok L time_steps I_sir gamma_ca k_infection draws)
    as (h & Hrun & Hok); [lia | lia |].
  exists h. split; [assumption|]. intros i t t' Hi Htt Ht' Hr.
  replace t' with (t + (t' - t)) by lia.
  apply (history_recovered_stays Hok); [assumption | lia | assumption].
Qed.

(** C7. For L >= 1 and time_steps >= 1 the run returns a history of
    time_steps rows, each of L cells, each cell one of Susceptible = 0,
    Infected = 1, Recovered = 2, whatever the draws are. *)
Theorem history_shape_and_states :
  1 <= L -> 1 <= time_steps ->
  exists h,
    run_ca_simulation L time_steps I_sir gamma_ca k_infection draws = Ok h /\
    length h = time_steps /\
    Forall (fun row => length row = L /\
                       Forall (fun c => c = 0%Z \/ c = 1%Z \/ c = 2%Z) row) h.
Proof.
  intros HL Hts.
  destruct (run_ca_simulation_ok L time_steps I_sir gamma_ca k_infection draws)
    as (h & Hrun & Hok); [lia | lia |].
  exists h. split; [assumption|].
  split; [apply (hist_length _ _ _ _ _ _ _ Hok)|].
  apply (history_all_states Hok).
Qed.

(** C8. With every draw in [0, 1), a Susceptible cell with at least one
    Infected ring neighbour, at a step where k_infection times the number
    of Infected neighbours times the prevalence of the step is at least 1,
    is Infected in the next row; the run raises nothing. *)
Theorem saturated_probability_always_infects :
  1 <= L -> 1 <= time_steps ->
  (forall q, (0 <= draws q)%Q /\ (draws q < 1)%Q) ->
  exists h,
    run_ca_simulation L time_steps I_sir gamma_ca k_infection draws = Ok h /\
    forall t i, 1 <= t < time_steps -> i < L ->
      cell h (t - 1) i = SUSCEPTIBLE ->
      0 < infected_neighbors L (h !!! (t - 1)) i ->
      (1 <= k_infection
            * inject_Z (Z.of_nat (infected_neighbors L (h !!! (t - 1)%nat) i))
            * I_sir t)%Q ->
      cell h t i = INFECTED.
Proof.
  intros HL Hts Hdraws.
  destruct (run_ca_simulation_ok L time_steps I_sir gamma_ca k_infection draws)
    as (h & Hrun & Hok); [lia | lia |].
  exists h. split; [assumption|]. intros t i Ht Hi Hs Hn Hp.
  destruct (hist_step _ _ _ _ _ _ _ Hok t i Ht Hi) as [q ->].
  apply cell_next_saturated; [assumption | assumption | assumption |].
  apply Hdraws.
Qed.

(** C9. From one recorded step to the next the state value of a cell never
    decreases: a Susceptible cell stays or becomes Infected, an Infected
    cell stays or becomes Recovered, a Recovered cell stays; and the number
    of Susceptible cells does not increase. *)
Theorem cell_states_never_decrease :
  1 <= L -> 1 <= time_steps ->
  exists h,
    run_ca_simulation L time_steps I_sir gamma_ca k_infection draws = Ok h /\
    forall t, S t < time_steps ->
      (forall i, i < L ->
         (cell h t i <= cell h (S t) i)%Z /\
         allowed (cell h t i) (cell h (S t) i)) /\
      count_susceptible (h !!! S t) <= count_susceptible (h !!! t).
Proof.
  intros HL Hts.
  destruct (run_ca_simulation_ok L time_steps I_sir gamma_ca k_infection draws)
    as (h & Hrun & Hok); [lia | lia |].
  exists h. split; [assumption|]. intros t Ht. split.
  - intros i Hi. pose proof (history_allowed Hok t i Ht Hi) as Ha.
    split; [now apply allowed_le | assumption].
  - apply count_susceptible_mono, Forall2_same_length_lookup_2.
    + rewrite !(hist_rows _ _ _ _ _ _ _ Hok) by lia. reflexivity.
    + intros i a b Ha Hb Hb0.
      apply list_lookup_alt in Ha as [Hia <-], Hb as [Hib Hb].
      rewrite (hist_rows _ _ _ _ _ _ _ Hok) in Hia by lia.
      pose proof (history_allowed Hok t i Ht Hia) as Hal.
      unfold cell in Hal. rewrite Hb, Hb0 in Hal.
      revert Hal. unfold allowed, SUSCEPTIBLE, INFECTED, RECOVERED.
      intuition lia.
Qed.

End AutomatonClaims.

Lemma example_draws_unit (q : nat) :
  (0 <= CA.example_draws q)%Q /\ (CA.example_draws q < 1)%Q.
Proof.
  unfold CA.example_draws. destruct (Nat.even q); split; reflexivity || discriminate.
Qed.

Lemma initial_row_single_infected_witness :
  2 <= 8 /\ 1 <= 3 /\
  exists h,
    CA.run_ca_simulation 8 3 (fun _ => 1%Q) (1 # 10) (8 # 10) CA.example_draws
      = Ok h /\
    length (h !!! 0) = 8 /\
    CA.cell h 0 (8 / 2) = INFECTED /\
    (forall i, i < 8 -> i <> 8 / 2 -> CA.cell h 0 i = SUSCEPTIBLE) /\
    (forall i, i < 8 -> CA.cell h 0 i = INFECTED <-> i = 8 / 2).
Proof.
  split; [lia|]. split; [lia|].
  apply (initial_row_single_infected 8 3); lia.
Defined.

Lemma recovered_is_absorbing_witness :
  1 <= 8 /\ 1 <= 6 /\
  exists h,
    CA.run_ca_simulation 8 6 (fun _ => 1%Q) (1 # 2) 1 CA.example_draws = Ok h /\
    forall i t t', i < 8 -> t < t' -> t' < 6 ->
      CA.cell h t i = RECOVERED -> CA.cell h t' i = RECOVERED.
Proof.
  split; [lia|]. split; [lia|].
  apply (recovered_is_absorbing 8 6); lia.
Defined.

Lemma history_shape_and_states_witness :
  1 <= 8 /\ 1 <= 6 /\
  exists h,
    CA.run_ca_simulation 8 6 (fun _ => 1%Q) (1 # 2) 1 CA.example_draws = Ok h /\
    length h = 6 /\
    Forall (fun row => length row = 8 /\
                       Forall (fun c => c = 0%Z \/ c = 1%Z \/ c = 2%Z) row) h.
Proof.
  split; [lia|]. split; [lia|].
  apply (history_shape_and_states 8 6); lia.
Defined.

(** On a ring of two cells the Susceptible cell 0 has the Infected cell 1
    as both neighbours; with k_infection = 1/2 and prevalence 1 the
    threshold is 1 and the cell is Infected in row 1. *)
Lemma saturated_probability_witness :
  exists h,
    CA.run_ca_simulation 2 2 (fun _ => 1%Q) (1 # 2) (1 # 2) CA.example_draws
      = Ok h /\
    CA.infected_neighbors 2 (h !!! 0) 0 = 2 /\
    CA.cell h 1 0 = INFECTED.
Proof.
  destruct (saturated_probability_always_infects 2 2 (fun _ => 1%Q) (1 # 2)
              (1 # 2) CA.example_draws) as (h & Hrun & Hinf);
    [lia | lia | apply example_draws_unit |].
  exists h. split; [assumption|].
  assert (Hh : h = [[0; 1]; [1; 1]]%Z).
  { vm_compute in Hrun. congruence. }
  split; [now rewrite Hh|].
  apply (Hinf 1 0); [lia | lia | now rewrite Hh | rewrite Hh; vm_compute; lia |].
  rewrite Hh. vm_compute. discriminate.
Defined.

Lemma cell_states_never_decrease_witness :
  1 <= 8 /\ 1 <= 6 /\
  exists h,
    CA.run_ca_simulation 8 6 (fun _ => 1%Q) (1 # 2) 1 CA.example_draws = Ok h /\
    forall t, S t < 6 ->
      (forall i, i < 8 ->
         (CA.cell h t i <= CA.cell h (S t) i)%Z /\
         CA.allowed (CA.cell h t i) (CA.cell h (S t) i)) /\
      CA.count_susceptible (h !!! S t) <= CA.count_susceptible (h !!! t).
Proof.
  split; [lia|]. split; [lia|].
  apply (cell_states_never_decrease 8 6); lia.
Defined.

(** * The claims about the box sizes *)

Section BoxSizeClaims.
Import BoxDim BoxSizes.

(** C1, as the code has it. For a grid of length L >= 1 the box sizes are
    2^0, 2^1, ..., 2^(m-1) with m the integer part of log2 L, that is the
    powers of two whose double is at most L. They are all the powers of
    two strictly below L when L is itself a power of two; for L = 512 they
    are 1, 2, 4, 8, 16, 32, 64, 128, 256. *)
Theorem box_sizes_below_log2 (L : nat) :
  1 <= L ->
  box_sizes L = Ok (map (fun i => 2 ^ i) (seq 0 (Nat.log2 L))) /\
  (forall s, generated L s <-> exists i, s = 2 ^ i /\ 2 * s <= L) /\
  ((exists k, L = 2 ^ k) ->
   forall s, generated L s <-> exists i, s = 2 ^ i /\ s < L) /\
  (L = 512 -> box_sizes L = Ok [1; 2; 4; 8; 16; 32; 64; 128; 256]).
Proof.
  intros HL. split; [now apply box_sizes_eq|].
  split; [intros s; now apply generated_iff|]. split.
  - intros [k ->] s. rewrite generated_iff by assumption.
    split; intros (i & -> & H); exists i; (split; [reflexivity|]);
      now apply pow2_lt_pow2_double.
  - intros ->. reflexivity.
Qed.

Lemma box_sizes_below_log2_witness :
  1 <= 8 /\ box_sizes 8 = Ok [1; 2; 4] /\ generated 8 4.
Proof.
  destruct (box_sizes_below_log2 8) as (Heq & _ & Hpow & _); [lia|].
  split; [lia|]. split; [exact Heq|].
  apply Hpow; [now exists 3|]. exists 2. split; [reflexivity | lia].
Defined.

(** C1, as it is stated, fails on a grid of length 3 such as [1; 1; 0]:
    the only box size generated is 1, while 2 is a power of two strictly
    below 3. *)
Lemma box_sizes_skip_power_below_3 :
  length [1; 1; 0]%Z = 3 /\
  box_sizes 3 = Ok [1] /\
  (exists i, 2 = 2 ^ i /\ 2 < 3) /\
  ~ generated 3 2.
Proof.
  split; [reflexivity|]. split; [reflexivity|]. split.
  - exists 1. split; [reflexivity | lia].
  - intros (l & Hl & Hin). vm_compute in Hl. injection Hl as <-.
    destruct Hin as [H|[]]. discriminate.
Qed.

End BoxSizeClaims.

(** * The claims about the SIR equations *)

Section SIRClaims.
Import SIR.
Open Scope R_scope.

Lemma py_div_nonzero (a b : R) : b <> 0 -> py_div a b = Ok (a / b).
Proof. intros Hb. unfold py_div. now rewrite decide_False. Qed.

Lemma sir_equations_eq (S_ I_ R_ t N beta gamma : R) :
  N <> 0 ->
  sir_equations (S_, I_, R_) t N beta gamma =
    Ok (- (beta * S_ * I_ / N), beta * S_ * I_ / N - gamma * I_, gamma * I_).
Proof.
  intros HN. unfold sir_equations. rewrite !py_div_nonzero by assumption.
  cbn. do 3 f_equal. field. assumption.
Qed.

(** No trajectory solves the system when N = 0: the equations raise. *)
Lemma solves_nonzero (N beta gamma : R) (S_ I_ R_ : R -> R) :
  solves N beta gamma S_ I_ R_ -> N <> 0.
Proof.
  intros Hs HN. destruct (Hs 0) as (dS & dI & dR & Heq & _).
  unfold sir_equations, py_div in Heq.
  destruct (decide (N = 0)); [cbn in Heq; discriminate | contradiction].
Qed.

(** Along an exact solution the total S + I + R has derivative zero. *)
Lemma total_derivative_zero (N beta gamma : R) (S_ I_ R_ : R -> R) :
  solves N beta gamma S_ I_ R_ ->
  forall t, derivable_pt_lim (fun u => S_ u + I_ u + R_ u) t 0.
Proof.
  intros Hs t. pose proof (solves_nonzero _ _ _ _ _ _ Hs) as HN.
  destruct (Hs t) as (dS & dI & dR & Heq & HdS & HdI & HdR).
  rewrite sir_equations_eq in Heq by assumption.
  injection Heq as <- <- <-.
  replace 0 with (- (beta * S_ t * I_ t / N)
                  + (beta * S_ t * I_ t / N - gamma * I_ t)
                  + gamma * I_ t) by ring.
  apply (derivable_pt_lim_plus (fun u => S_ u + I_ u) R_); [|assumption].
  now apply (derivable_pt_lim_plus S_ I_).
Qed.

Lemma total_constant (N beta gamma : R) (S_ I_ R_ : R -> R) :
  solves N beta gamma S_ I_ R_ ->
  forall t, S_ t + I_ t + R_ t = S_ 0 + I_ 0 + R_ 0.
Proof.
  intros Hs t.
  set (f := fun u => S_ u + I_ u + R_ u).
  assert (Hd : forall u, derivable_pt_lim f u 0)
    by (apply (total_derivative_zero _ _ _ _ _ _ Hs)).
  pose (pr := fun u => exist (fun l => derivable_pt_abs f u l) 0 (Hd u)
              : derivable_pt f u).
  assert (Hc : constant f).
  { apply (null_derivative_1 f pr). intros u. reflexivity. }
  apply (Hc t 0).
Qed.

(** C4, as the code has it. For N <> 0 the call evaluates the triple
    (-beta S I / N, beta S I / N - gamma I, gamma I); read over the real
    numbers, in exact arithmetic, the three derivatives sum to zero, and
    along every exact solution of the system that starts with
    S + I + R = N the total stays N. *)
Theorem sir_equations_conserve_total (S_ I_ R_ t N beta gamma : R) :
  N <> 0 ->
  sir_equations (S_, I_, R_) t N beta gamma =
    Ok (- (beta * S_ * I_ / N), beta * S_ * I_ / N - gamma * I_, gamma * I_) /\
  (forall dS dI dR,
     sir_equations (S_, I_, R_) t N beta gamma = Ok (dS, dI, dR) ->
     dS + dI + dR = 0) /\
  (forall St It Rt : R -> R,
     solves N beta gamma St It Rt ->
     St 0 + It 0 + Rt 0 = N ->
     forall u, St u + It u + Rt u = N).
Proof.
  intros HN. split; [now apply sir_equations_eq|]. split.
  - intros dS dI dR. rewrite sir_equations_eq by assumption.
    intros [= <- <- <-]. ring.
  - intros St It Rt Hs H0 u. rewrite <- H0. now apply (total_constant N beta gamma).
Qed.

(** The disease-free state S = N, I = 0, R = 0 is an exact solution. *)
Lemma disease_free_solves (N beta gamma : R) :
  N <> 0 ->
  solves N beta gamma (fun _ => N) (fun _ => 0) (fun _ => 0).
Proof.
  intros HN t. exists 0, 0, 0. split.
  - rewrite sir_equations_eq by assumption. do 3 f_equal; now field.
  - repeat split; apply derivable_pt_lim_const.
Qed.

Lemma decay_derivative (a g t : R) :
  derivable_pt_lim (fun u => a * exp (- g * u)) t (- g * (a * exp (- g * t))).
Proof.
  replace (- g * (a * exp (- g * t)))
    with (a * (exp (- g * t) * (- g * 1))) by ring.
  change (derivable_pt_lim
            (mult_real_fct a (comp exp (mult_real_fct (- g) id))) t
            (a * (exp (mult_real_fct (- g) id t) * (- g * 1)))).
  apply derivable_pt_lim_scal, derivable_pt_lim_comp.
  - apply derivable_pt_lim_scal, derivable_pt_lim_id.
  - apply derivable_pt_lim_exp.
Qed.

(** Without transmission (beta = 0) the Infected decay exponentially into
    the Recovered: an exact solution that is not constant. *)
Lemma decay_solves (N gamma s0 i0 r0 : R) :
  N <> 0 ->
  solves N 0 gamma (fun _ => s0)
         (fun u => i0 * exp (- gamma * u))
         (fun u => r0 + i0 - i0 * exp (- gamma * u)).
Proof.
  intros HN t.
  exists 0, (- gamma * (i0 * exp (- gamma * t))),
         (gamma * (i0 * exp (- gamma * t))).
  split; [|split; [|split]].
  - rewrite sir_equations_eq by assumption. do 3 f_equal; now field.
  - apply derivable_pt_lim_const.
  - apply decay_derivative.
  - replace (gamma * (i0 * exp (- gamma * t)))
      with (0 - - gamma * (i0 * exp (- gamma * t))) by ring.
    apply (derivable_pt_lim_minus (fct_cte (r0 + i0))
             (fun u => i0 * exp (- gamma * u))).
    + apply derivable_pt_lim_const.
    + apply decay_derivative.
Qed.

Lemma sir_equations_conserve_total_witness :
  100 <> 0 /\
  sir_equations (90, 10, 0) 0 100 0 (1 / 10) =
    Ok (- (0 * 90 * 10 / 100),
        0 * 90 * 10 / 100 - 1 / 10 * 10,
        1 / 10 * 10) /\
  solves 100 0 (1 / 10) (fun _ => 85)
         (fun u => 10 * exp (- (1 / 10) * u))
         (fun u => 5 + 10 - 10 * exp (- (1 / 10) * u)) /\
  (forall u : R,
     85 + 10 * exp (- (1 / 10) * u)
     + (5 + 10 - 10 * exp (- (1 / 10) * u)) = 100).
Proof.
  assert (H : 100 <> 0) by lra.
  destruct (sir_equations_conserve_total 90 10 0 0 100 0 (1 / 10) H)
    as (Heq & _ & Hcons).
  assert (Hs : solves 100 0 (1 / 10) (fun _ => 85)
                 (fun u => 10 * exp (- (1 / 10) * u))
                 (fun u => 5 + 10 - 10 * exp (- (1 / 10) * u)))
    by (apply decay_solves; exact H).
  split; [exact H|]. split; [exact Heq|]. split; [exact Hs|].
  apply (Hcons _ _ _ Hs). rewrite Rmult_0_r, exp_0. lra.
Defined.

End SIRClaims.

Section SIRBinary64.
Import PrimFloat.

(** C4, as it is stated, fails on the program. At S = 3, I = 1, R = 0,
    N = 3, beta = 0.5, gamma = 0.1 (the binary64 number next to it) the
    call returns -0.5, the binary64 number next to 0.4, and gamma; their
    sum, taken in binary64, is 2^-55 and not zero. *)
Lemma sir_equations_binary64_sum :
  SIRFloat.sir_equations (3, 1, 0)%float 0%float 3%float 0.5%float
                         0x1.999999999999ap-4%float
    = (- 0.5, 0x1.999999999999ap-2, 0x1.999999999999ap-4)%float /\
  (- 0.5 + 0x1.999999999999ap-2 + 0x1.999999999999ap-4)%float
    = 0x1p-55%float /\
  (- 0.5 + 0x1.999999999999ap-2 + 0x1.999999999999ap-4 =? 0)%float = false.
Proof. repeat split; vm_compute; reflexivity. Qed.

End SIRBinary64.

(** * The claims about the dimension estimate *)

Section BoxDimClaims.
Import BoxDim BoxDimFacts.

(** C2. Every call returns a real number and raises nothing. In each
    degenerate case (fewer than two active cells, no box size, fewer than
    two box sizes with a positive count, a regression that fails or gives
    a slope that is not a number) the value is exactly 0.0; so it is on an
    all-Susceptible grid and on a grid with exactly one active cell. The
    logarithms are taken of positive sizes and counts only. *)
Theorem calculate_box_dimension_total (grid_state : list Z) :
  (exists r, calculate_box_dimension grid_state = Ok r) /\
  (Forall (fun s => 0 < s)
          (select (sizes_of grid_state) (valid_of grid_state)) /\
   Forall (fun c => 0 < c)
          (select (counts_of grid_state) (valid_of grid_state))) /\
  (degenerate grid_state -> calculate_box_dimension grid_state = Ok 0%R) /\
  (Forall (fun c => c = SUSCEPTIBLE) grid_state ->
   calculate_box_dimension grid_state = Ok 0%R) /\
  (length (active_cells_indices grid_state) = 1 ->
   calculate_box_dimension grid_state = Ok 0%R).
Proof.
  split; [apply calculate_box_dimension_returns|].
  split; [apply regression_inputs_positive|].
  split; [apply calculate_box_dimension_degenerate|]. split.
  - intros Hall. apply calculate_box_dimension_degenerate. left.
    rewrite no_active_cells by assumption. cbn. lia.
  - intros Hone. apply calculate_box_dimension_degenerate. left. lia.
Qed.

Lemma calculate_box_dimension_total_witness :
  degenerate [0; 0; 2; 0; 0]%Z /\
  length (active_cells_indices [0; 0; 2; 0; 0]%Z) = 1 /\
  calculate_box_dimension [0; 0; 2; 0; 0]%Z = Ok 0%R.
Proof.
  assert (Hd : degenerate [0; 0; 2; 0; 0]%Z) by (left; cbn; lia).
  split; [exact Hd|]. split; [reflexivity|].
  destruct (calculate_box_dimension_total [0; 0; 2; 0; 0]%Z)
    as (_ & _ & Hdeg & _).
  exact (Hdeg Hd).
Defined.

(** C10. Two grids of the same length whose active cells (state > 0) sit
    at the same indices get the same estimate: whether an active cell is
    Infected or Recovered plays no part. *)
Theorem calculate_box_dimension_active_only (g1 g2 : list Z) :
  length g1 = length g2 ->
  (forall i, i < length g1 ->
     (0 < nth i g1 0)%Z <-> (0 < nth i g2 0)%Z) ->
  calculate_box_dimension g1 = calculate_box_dimension g2.
Proof.
  intros Hlen Hact.
  apply calculate_box_dimension_pattern.
  now apply pattern_of_active_cells.
Qed.

Lemma calculate_box_dimension_active_only_witness :
  length [1; 0; 2; 1; 0; 0; 1; 2]%Z = length [2; 0; 1; 1; 0; 0; 2; 2]%Z /\
  calculate_box_dimension [1; 0; 2; 1; 0; 0; 1; 2]%Z =
    calculate_box_dimension [2; 0; 1; 1; 0; 0; 2; 2]%Z.
Proof.
  split; [reflexivity|].
  apply calculate_box_dimension_active_only; [reflexivity|].
  intros i Hi. cbn in Hi.
  do 8 (destruct i as [|i]; [cbn; lia|]). lia.
Defined.

(** C3, as the code has it. On a fully active grid (every cell Infected or
    Recovered) of length L = 2^k the estimate, with exact real arithmetic,
    is 1 when k >= 2, hence within 0.2 of 1.0; for L = 1 and L = 2 it is
    0.0, the value of the guards. *)
Theorem full_grid_dimension (g : list Z) (k : nat) :
  Forall (fun c => c = INFECTED \/ c = RECOVERED) g ->
  length g = 2 ^ k ->
  (2 <= k ->
   exists r, calculate_box_dimension g = Ok r /\ r = 1%R /\
             (Rabs (r - 1) <= 2 / 10)%R) /\
  (k < 2 -> calculate_box_dimension g = Ok 0%R).
Proof.
  intros Hfull Hlen. split.
  - intros Hk. exists 1%R. split; [|split; [reflexivity|]].
    + apply (FullGrid.calculate_box_dimension_full g k);
        [now apply FullGrid.infected_or_recovered_active | assumption | assumption].
    + replace (1 - 1)%R with 0%R by ring. rewrite Rabs_R0. lra.
  - intros Hk. apply calculate_box_dimension_degenerate.
    apply FullGrid.short_grid_degenerate. rewrite Hlen.
    destruct k as [|[|k]]; cbn; lia.
Qed.

Lemma full_grid_dimension_witness :
  Forall (fun c => c = INFECTED \/ c = RECOVERED) [1; 2; 2; 1]%Z /\
  length [1; 2; 2; 1]%Z = 2 ^ 2 /\
  calculate_box_dimension [1; 2; 2; 1]%Z = Ok 1%R.
Proof.
  assert (Hfull : Forall (fun c => c = INFECTED \/ c = RECOVERED)
                         [1; 2; 2; 1]%Z).
  { repeat constructor; (now left) || (now right). }
  split; [exact Hfull|]. split; [reflexivity|].
  destruct (full_grid_dimension [1; 2; 2; 1]%Z 2 Hfull eq_refl) as [Hone _].
  destruct (Hone (le_n 2)) as (r & Hr & -> & _). exact Hr.
Defined.

(** C3, as it is stated, fails on the fully active grid [1; 1] of length
    2 = 2^1: a single box size is generated, the guard on the number of
    box sizes returns 0.0, and 0.0 is not within 0.2 of 1.0. *)
Lemma full_grid_of_two_cells :
  Forall (fun c => c = INFECTED \/ c = RECOVERED) [1; 1]%Z /\
  length [1; 1]%Z = 2 ^ 1 /\
  calculate_box_dimension [1; 1]%Z = Ok 0%R /\
  ~ (Rabs (0 - 1) <= 2 / 10)%R.
Proof.
  split; [repeat constructor; now left|]. split; [reflexivity|]. split.
  - apply calculate_box_dimension_degenerate, FullGrid.short_grid_degenerate.
    cbn. lia.
  - unfold Rabs. destruct (Rcase_abs (0 - 1)); lra.
Qed.

End BoxDimClaims.

(** * Further properties of the SIR equations *)

Section SIRFurther.
Import SIR Pipeline.
#[local] Open Scope R_scope.

Lemma flow_nonneg (N beta S_ I_ : R) :
  0 < N -> 0 <= beta -> 0 <= S_ -> 0 <= I_ -> 0 <= beta * S_ * I_ / N.
Proof.
  intros HN Hb HS HI. unfold Rdiv.
  apply Rmult_le_pos; [|left; now apply Rinv_0_lt_compat].
  apply Rmult_le_pos; [now apply Rmult_le_pos | assumption].
Qed.

(** X1. In exact real arithmetic: with a positive population and
    non-negative rates and state the Susceptible derivative is never
    positive and the Recovered derivative is never negative, so S can only
    fall and R can only rise. *)
Theorem sir_equations_monotone (S_ I_ R_ t N beta gamma : R) :
  0 < N -> 0 <= beta -> 0 <= gamma -> 0 <= S_ -> 0 <= I_ ->
  exists dS dI dR,
    sir_equations (S_, I_, R_) t N beta gamma = Ok (dS, dI, dR) /\
    dS <= 0 /\ 0 <= dR.
Proof.
  intros HN Hb Hg HS HI. eexists _, _, _.
  split; [apply sir_equations_eq; lra|].
  pose proof (flow_nonneg N beta S_ I_ HN Hb HS HI).
  split; [lra | now apply Rmult_le_pos].
Qed.

Lemma sir_equations_monotone_witness :
  exists dS dI dR,
    sir_equations (90, 10, 0) 0 100 (1 / 2) (1 / 10) = Ok (dS, dI, dR) /\
    dS <= 0 /\ 0 <= dR.
Proof. apply sir_equations_monotone; lra. Defined.

(** X2. In exact real arithmetic: with a positive population and some
    Infected, the Infected derivative is positive exactly when
    beta S > gamma N, zero exactly when beta S = gamma N; the epidemic
    grows iff S / N exceeds gamma / beta. *)
Theorem sir_equations_threshold (S_ I_ R_ t N beta gamma : R) :
  0 < N -> 0 < I_ ->
  exists dS dI dR,
    sir_equations (S_, I_, R_) t N beta gamma = Ok (dS, dI, dR) /\
    (0 < dI <-> gamma * N < beta * S_) /\
    (dI = 0 <-> beta * S_ = gamma * N).
Proof.
  intros HN HI. eexists _, _, _.
  split; [apply sir_equations_eq; lra|].
  assert (Hq : 0 < I_ / N) by (apply Rdiv_lt_0_compat; assumption).
  replace (beta * S_ * I_ / N - gamma * I_)
    with (I_ / N * (beta * S_ - gamma * N)) by (field; lra).
  split; split; intros H.
  - assert (0 < beta * S_ - gamma * N); [|lra].
    apply (Rmult_lt_reg_l (I_ / N)); [assumption|]. lra.
  - apply Rmult_lt_0_compat; lra.
  - apply Rmult_integral in H. lra.
  - replace (beta * S_ - gamma * N) with 0 by lra. ring.
Qed.

Lemma sir_equations_threshold_witness :
  exists dS dI dR,
    sir_equations (90, 10, 0) 0 100 (1 / 2) (1 / 10) = Ok (dS, dI, dR) /\
    (0 < dI <-> 1 / 10 * 100 < 1 / 2 * 90) /\
    (dI = 0 <-> 1 / 2 * 90 = 1 / 10 * 100).
Proof. apply sir_equations_threshold; lra. Defined.

(** X3. In exact real arithmetic: for N <> 0 and gamma <> 0 the state is
    at rest, all three derivatives zero, exactly when nobody is
    Infected. *)
Theorem sir_equations_rest (S_ I_ R_ t N beta gamma : R) :
  N <> 0 -> gamma <> 0 ->
  sir_equations (S_, I_, R_) t N beta gamma = Ok (0, 0, 0) <-> I_ = 0.
Proof.
  intros HN Hg. rewrite sir_equations_eq by assumption. split.
  - intros [= _ _ H]. apply Rmult_integral in H. tauto.
  - intros ->. do 3 f_equal; now field.
Qed.

Lemma sir_equations_rest_witness :
  sir_equations (100, 0, 0) 0 100 (1 / 2) (1 / 10) = Ok (0, 0, 0).
Proof. apply sir_equations_rest; lra. Defined.



End SIRFurther.

(** * Further properties of the automaton *)

Module CAFurther.
Import CA CAFacts Pipeline.

Lemma left_index_lt (L i : nat) : 1 <= L -> left_index L i < L.
Proof.
  intros HL. unfold left_index.
  pose proof (Z.mod_pos_bound (Z.of_nat i - 1 + Z.of_nat L) (Z.of_nat L)
                ltac:(lia)). lia.
Qed.

Lemma right_index_lt (L i : nat) : 1 <= L -> right_index L i < L.
Proof.
  intros HL. unfold right_index.
  pose proof (Z.mod_pos_bound (Z.of_nat i + 1) (Z.of_nat L) ltac:(lia)). lia.
Qed.

(** A positive count names an Infected neighbour. *)
Lemma infected_neighbors_pos (L : nat) (grid : list Z) (i : nat) :
  0 < infected_neighbors L grid i ->
  grid !!! left_index L i = INFECTED \/ grid !!! right_index L i = INFECTED.
Proof.
  unfold infected_neighbors. cbv zeta.
  destruct (Z.eqb_spec (grid !!! left_index L i) INFECTED); [now left|].
  destruct (Z.eqb_spec (grid !!! right_index L i) INFECTED); [now right|].
  cbn. lia.
Qed.

Lemma infected_neighbors_none (L : nat) (grid : list Z) (i : nat) :
  grid !!! left_index L i <> INFECTED ->
  grid !!! right_index L i <> INFECTED ->
  infected_neighbors L grid i = 0.
Proof.
  intros Hl Hr. unfold infected_neighbors. cbv zeta.
  destruct (Z.eqb_spec (grid !!! left_index L i) INFECTED); [contradiction|].
  destruct (Z.eqb_spec (grid !!! right_index L i) INFECTED); [contradiction|].
  reflexivity.
Qed.

Lemma threshold_nonpos (k prevalence : Q) (n : nat) :
  (k * prevalence <= 0)%Q ->
  (k * inject_Z (Z.of_nat n) * prevalence <= 0)%Q.
Proof.
  destruct k as [kn kd], prevalence as [pn pd].
  unfold Qle, Qmult, inject_Z. cbn. nia.
Qed.

Lemma Qltb_ge (a b : Q) : (b <= a)%Q -> Qltb a b = false.
Proof.
  intros H. unfold Qltb. apply negb_false_iff. now apply Qle_bool_iff.
Qed.

Section Rule.

Variables (L : nat) (gamma_ca k_infection : Q).

#[local] Abbreviation cell_next := (cell_next L gamma_ca k_infection).

Lemma cell_next_no_neighbour (grid : list Z) (prevalence : Q) (i : nat)
    (r : Q) :
  grid !!! i = SUSCEPTIBLE -> infected_neighbors L grid i = 0 ->
  cell_next grid prevalence i r = SUSCEPTIBLE.
Proof.
  intros Hs Hn. unfold CA.cell_next. rewrite Hs, Hn. reflexivity.
Qed.

Lemma cell_next_blocked (grid : list Z) (prevalence : Q) (i : nat) (r : Q) :
  grid !!! i = SUSCEPTIBLE ->
  (k_infection * prevalence <= 0)%Q -> (0 <= r)%Q ->
  cell_next grid prevalence i r = SUSCEPTIBLE.
Proof.
  intros Hs Hp Hr. unfold CA.cell_next. rewrite Hs. cbv zeta.
  change (SUSCEPTIBLE =? SUSCEPTIBLE)%Z with true. cbv iota.
  destruct (0 <? infected_neighbors L grid i); [|reflexivity].
  rewrite Qltb_ge; [reflexivity|].
  eapply Qle_trans; [apply threshold_nonpos|]; eassumption.
Qed.

Lemma cell_next_infected (grid : list Z) (prevalence : Q) (i : nat) (r : Q) :
  grid !!! i = INFECTED ->
  cell_next grid prevalence i r =
    if Qltb r gamma_ca then RECOVERED else INFECTED.
Proof. intros Hi. unfold CA.cell_next. now rewrite Hi. Qed.

Lemma cell_next_other (grid : list Z) (prevalence : Q) (i : nat) (r : Q) :
  grid !!! i <> SUSCEPTIBLE -> grid !!! i <> INFECTED ->
  cell_next grid prevalence i r = grid !!! i.
Proof.
  intros Hs Hi. unfold CA.cell_next.
  destruct (Z.eqb_spec (grid !!! i) SUSCEPTIBLE); [contradiction|].
  destruct (Z.eqb_spec (grid !!! i) INFECTED); [contradiction|].
  reflexivity.
Qed.

(** A Susceptible cell that is no longer Susceptible had an Infected
    neighbour. *)
Lemma cell_next_infection_source (grid : list Z) (prevalence : Q) (i : nat)
    (r : Q) :
  grid !!! i = SUSCEPTIBLE ->
  cell_next grid prevalence i r <> SUSCEPTIBLE ->
  grid !!! left_index L i = INFECTED \/ grid !!! right_index L i = INFECTED.
Proof.
  intros Hs Hne. apply infected_neighbors_pos.
  destruct (Nat.eq_dec (infected_neighbors L grid i) 0) as [H0|]; [|lia].
  now rewrite cell_next_no_neighbour in Hne.
Qed.

End Rule.

(** *** The ring around the seed cell *)

Lemma within_seed (L : nat) : 1 <= L -> within L 0 (L / 2).
Proof.
  intros HL. exists 0%Z. split; [lia|].
  assert (L / 2 < L) by (apply Nat.div_lt; lia).
  rewrite Z.add_0_r, Z.mod_small by lia. lia.
Qed.

Lemma within_mono (L d d' i : nat) : d <= d' -> within L d i -> within L d' i.
Proof. intros Hd (z & Hz & ->). exists z. split; [lia | reflexivity]. Qed.

Lemma within_from_left (L d i : nat) :
  i < L -> within L d (left_index L i) -> within L (S d) i.
Proof.
  intros Hi (z & Hz & Heq). exists (z + 1)%Z. split; [lia|].
  unfold left_index in Heq. apply (f_equal Z.of_nat) in Heq.
  pose proof (Z.mod_pos_bound (Z.of_nat i - 1 + Z.of_nat L) (Z.of_nat L)
                ltac:(lia)).
  pose proof (Z.mod_pos_bound (Z.of_nat (L / 2) + z) (Z.of_nat L) ltac:(lia)).
  rewrite !Z2Nat.id in Heq by lia.
  replace (Z.of_nat (L / 2) + (z + 1))%Z
    with ((Z.of_nat (L / 2) + z) + 1)%Z by lia.
  rewrite Zplus_mod, <- Heq, <- Zplus_mod.
  replace (Z.of_nat i - 1 + Z.of_nat L + 1)%Z
    with (Z.of_nat i + 1 * Z.of_nat L)%Z by lia.
  rewrite Z_mod_plus_full, Z.mod_small by lia. lia.
Qed.

Lemma within_from_right (L d i : nat) :
  i < L -> within L d (right_index L i) -> within L (S d) i.
Proof.
  intros Hi (z & Hz & Heq). exists (z - 1)%Z. split; [lia|].
  unfold right_index in Heq. apply (f_equal Z.of_nat) in Heq.
  pose proof (Z.mod_pos_bound (Z.of_nat i + 1) (Z.of_nat L) ltac:(lia)).
  pose proof (Z.mod_pos_bound (Z.of_nat (L / 2) + z) (Z.of_nat L) ltac:(lia)).
  rewrite !Z2Nat.id in Heq by lia.
  replace (Z.of_nat (L / 2) + (z - 1))%Z
    with ((Z.of_nat (L / 2) + z) + (- 1))%Z by lia.
  rewrite Zplus_mod, <- Heq, <- Zplus_mod.
  replace (Z.of_nat i + 1 + - 1)%Z with (Z.of_nat i) by lia.
  rewrite Z.mod_small by lia. lia.
Qed.

Section History.

Context {L time_steps : nat} {I_sir : nat -> Q} {gamma_ca k_infection : Q}
        {draws : nat -> Q} {h : list (list Z)}.
Hypothesis Hok : history_ok L time_steps I_sir gamma_ca k_infection draws h.

Lemma history_next (t i : nat) :
  S t < time_steps -> i < L ->
  exists q, cell h (S t) i =
    cell_next L gamma_ca k_infection (h !!! t) (I_sir (S t)) i (draws q).
Proof.
  intros Ht Hi.
  destruct (hist_step _ _ _ _ _ _ _ Hok (S t) i) as [q Hq]; [lia | lia |].
  exists q. rewrite Hq. now replace (S t - 1) with t by lia.
Qed.

(** The infection travels one cell per step at most. *)
Lemma history_light_cone (t i : nat) :
  t < time_steps -> i < L -> cell h t i <> SUSCEPTIBLE -> within L t i.
Proof.
  revert i. induction t as [|t IH]; intros i Ht Hi Hne.
  - unfold cell in Hne. rewrite (hist_init _ _ _ _ _ _ _ Hok) in Hne.
    rewrite initial_grid_lookup in Hne by assumption.
    destruct (decide (i = L / 2)) as [->|]; [|contradiction].
    apply within_seed. lia.
  - destruct (history_next t i Ht Hi) as [q Hq].
    destruct (Z.eq_dec (cell h t i) SUSCEPTIBLE) as [Hs|Hs].
    + rewrite Hq in Hne.
      destruct (cell_next_infection_source _ _ _ _ _ _ _ Hs Hne) as [Hl|Hr].
      * apply within_from_left; [assumption|]. apply IH.
        -- lia.
        -- apply left_index_lt. lia.
        -- unfold cell. rewrite Hl. discriminate.
      * apply within_from_right; [assumption|]. apply IH.
        -- lia.
        -- apply right_index_lt. lia.
        -- unfold cell. rewrite Hr. discriminate.
    + apply (within_mono L t); [lia|]. apply IH; [lia | assumption | assumption].
Qed.

Lemma rows_equal (t t' : nat) :
  t < time_steps -> t' < time_steps ->
  (forall i, i < L -> cell h t' i = cell h t i) -> h !!! t' = h !!! t.
Proof.
  intros Ht Ht' Hcells.
  pose proof (hist_rows _ _ _ _ _ _ _ Hok t Ht) as Hl.
  pose proof (hist_rows _ _ _ _ _ _ _ Hok t' Ht') as Hl'.
  apply list_eq. intros i. destruct (decide (i < L)) as [Hi|Hi].
  - rewrite !list_lookup_lookup_total_lt by lia. f_equal. now apply Hcells.
  - rewrite !lookup_ge_None_2 by lia. reflexivity.
Qed.

(** Once no cell is Infected the grid no longer changes. *)
Lemma history_extinct_step (t : nat) :
  S t < time_steps ->
  (forall i, i < L -> cell h t i <> INFECTED) ->
  h !!! S t = h !!! t.
Proof.
  intros Ht Hno. apply rows_equal; [lia | lia |]. intros i Hi.
  destruct (history_next t i Ht Hi) as [q ->].
  destruct (Z.eq_dec (cell h t i) SUSCEPTIBLE) as [Hs|Hs].
  - rewrite cell_next_no_neighbour; [now rewrite <- Hs | assumption |].
    apply infected_neighbors_none.
    + apply (Hno (left_index L i)), left_index_lt. lia.
    + apply (Hno (right_index L i)), right_index_lt. lia.
  - apply cell_next_other; [assumption | now apply Hno].
Qed.

Lemma history_extinct (t d : nat) :
  t + d < time_steps ->
  (forall i, i < L -> cell h t i <> INFECTED) ->
  h !!! (t + d) = h !!! t.
Proof.
  intros Ht Hno. induction d as [|d IH]; [now rewrite Nat.add_0_r|].
  replace (t + S d) with (S (t + d)) in * by lia.
  rewrite <- IH by lia. apply history_extinct_step; [assumption|].
  intros i Hi. unfold cell. rewrite IH by lia. now apply Hno.
Qed.

End History.

(** *** The draws a run consumes *)

Section Draws.

Variables (L : nat) (gamma_ca k_infection : Q) (draws draws' : nat -> Q).

Lemma update_cell_agree (grid new_grid : list Z) (prevalence : Q)
    (p i : nat) :
  draws p = draws' p ->
  update_cell L gamma_ca k_infection draws grid prevalence (new_grid, p) i =
  update_cell L gamma_ca k_infection draws' grid prevalence (new_grid, p) i.
Proof. intros H. unfold update_cell, rand. now rewrite H. Qed.

Lemma update_cell_position (grid new_grid : list Z) (prevalence : Q)
    (p i : nat) :
  p <= snd (update_cell L gamma_ca k_infection draws grid prevalence
              (new_grid, p) i) <= S p.
Proof. unfold update_cell, rand. repeat case_match; cbn; lia. Qed.

Lemma update_prefix_agree (grid new_grid : list Z) (prevalence : Q)
    (p n : nat) :
  (forall q, p <= q < p + n -> draws q = draws' q) ->
  fold_left (update_cell L gamma_ca k_infection draws grid prevalence)
            (seq 0 n) (new_grid, p) =
  fold_left (update_cell L gamma_ca k_infection draws' grid prevalence)
            (seq 0 n) (new_grid, p) /\
  p <= snd (fold_left
              (update_cell L gamma_ca k_infection draws grid prevalence)
              (seq 0 n) (new_grid, p)) <= p + n.
Proof.
  induction n as [|n IH]; intros Hag.
  - cbn. split; [reflexivity | lia].
  - destruct IH as [Heq Hpos]; [intros q Hq; apply Hag; lia|].
    rewrite !seq_S, !fold_left_app, <- Heq. cbn [fold_left Nat.add].
    destruct (fold_left _ (seq 0 n) (new_grid, p)) as [ng1 p1].
    cbn [snd] in Hpos.
    pose proof (update_cell_position grid ng1 prevalence p1 n) as Hstep.
    split; [apply update_cell_agree, Hag; lia | lia].
Qed.

Lemma time_loop_agree (I_sir : nat -> Q) (st : list Z * list (list Z) * nat)
    (m : nat) :
  (forall q, snd st <= q < snd st + L * m -> draws q = draws' q) ->
  fold_left (time_step L gamma_ca k_infection draws I_sir) (seq 1 m) st =
  fold_left (time_step L gamma_ca k_infection draws' I_sir) (seq 1 m) st /\
  snd st <= snd (fold_left (time_step L gamma_ca k_infection draws I_sir)
                   (seq 1 m) st) <= snd st + L * m.
Proof.
  induction m as [|m IH]; intros Hag.
  - cbn. split; [reflexivity | lia].
  - destruct IH as [Heq Hpos]; [intros q Hq; apply Hag; lia|].
    rewrite !seq_S, !fold_left_app, <- Heq. cbn [fold_left Nat.add].
    destruct (fold_left _ (seq 1 m) st) as [[grid h] p1].
    cbn [snd] in Hpos. unfold time_step, update_grid.
    destruct (update_prefix_agree grid grid (I_sir (S m)) p1 L) as [Hu Hp].
    { intros q Hq. apply Hag. lia. }
    rewrite <- Hu.
    destruct (fold_left _ (seq 0 L) (grid, p1)) as [ng p2].
    cbn [snd] in *. split; [reflexivity | lia].
Qed.

Lemma run_ca_simulation_agree (time_steps : nat) (I_sir : nat -> Q) :
  (forall q, q < L * (time_steps - 1) -> draws q = draws' q) ->
  run_ca_simulation L time_steps I_sir gamma_ca k_infection draws =
  run_ca_simulation L time_steps I_sir gamma_ca k_infection draws'.
Proof.
  intros Hag. unfold run_ca_simulation.
  destruct (setitem (replicate L SUSCEPTIBLE) (L / 2) INFECTED) as [grid|e];
    [|reflexivity].
  cbn [mbind result_bind].
  destruct (setitem _ 0 grid) as [grid_history|e]; [|reflexivity].
  cbn [mbind result_bind].
  destruct (time_loop_agree I_sir (grid, grid_history, 0) (time_steps - 1))
    as [-> _]; [|reflexivity].
  intros q Hq. apply Hag. cbn [snd] in Hq. lia.
Qed.

End Draws.

End CAFurther.

Section AutomatonFurther.
Import CA CAFacts CAFurther Pipeline.

Variables (L time_steps : nat) (I_sir : nat -> Q) (gamma_ca k_infection : Q)
          (draws : nat -> Q).

(** X5. A Susceptible cell none of whose two ring neighbours is Infected is
    Susceptible in the next row, whatever the draws, the prevalence and
    k_infection are: the infection only passes between neighbours. *)
Theorem isolated_susceptible_stays :
  1 <= L -> 1 <= time_steps ->
  exists h,
    run_ca_simulation L time_steps I_sir gamma_ca k_infection draws = Ok h /\
    forall t i, S t < time_steps -> i < L ->
      cell h t i = SUSCEPTIBLE ->
      infected_neighbors L (h !!! t) i = 0 ->
      cell h (S t) i = SUSCEPTIBLE.
Proof.
  intros HL Hts.
  destruct (run_ca_simulation_ok L time_steps I_sir gamma_ca k_infection draws)
    as (h & Hrun & Hok); [lia | lia |].
  exists h. split; [assumption|]. intros t i Ht Hi Hs Hn.
  destruct (history_next Hok t i Ht Hi) as [q ->].
  now apply cell_next_no_neighbour.
Qed.

(** X6. When k_infection times the prevalence is never positive (zero
    prevalence, say) and the draws are non-negative, nobody is ever
    infected: every cell but the seed cell L // 2 is Susceptible in every
    row. *)
Theorem no_transmission_without_prevalence :
  1 <= L -> 1 <= time_steps ->
  (forall q, (0 <= draws q)%Q) ->
  (forall t, (k_infection * I_sir t <= 0)%Q) ->
  exists h,
    run_ca_simulation L time_steps I_sir gamma_ca k_infection draws = Ok h /\
    forall t i, t < time_steps -> i < L -> i <> L / 2 ->
      cell h t i = SUSCEPTIBLE.
Proof.
  intros HL Hts Hdraws Hprev.
  destruct (run_ca_simulation_ok L time_steps I_sir gamma_ca k_infection draws)
    as (h & Hrun & Hok); [lia | lia |].
  exists h. split; [assumption|]. intros t i Ht Hi Hne.
  induction t as [|t IH].
  - unfold cell. rewrite (hist_init _ _ _ _ _ _ _ Hok).
    rewrite initial_grid_lookup by assumption. now rewrite decide_False.
  - destruct (history_next Hok t i Ht Hi) as [q ->].
    apply cell_next_blocked; [apply IH; lia | apply Hprev | apply Hdraws].
Qed.

(** X7. With gamma_ca at least 1 and every draw below 1, an Infected cell
    is Recovered in the very next row. *)
Theorem certain_recovery :
  1 <= L -> 1 <= time_steps ->
  (forall q, (draws q < 1)%Q) -> (1 <= gamma_ca)%Q ->
  exists h,
    run_ca_simulation L time_steps I_sir gamma_ca k_infection draws = Ok h /\
    forall t i, S t < time_steps -> i < L ->
      cell h t i = INFECTED -> cell h (S t) i = RECOVERED.
Proof.
  intros HL Hts Hdraws Hgamma.
  destruct (run_ca_simulation_ok L time_steps I_sir gamma_ca k_infection draws)
    as (h & Hrun & Hok); [lia | lia |].
  exists h. split; [assumption|]. intros t i Ht Hi Hinf.
  destruct (history_next Hok t i Ht Hi) as [q ->].
  rewrite cell_next_infected by assumption.
  assert (Hlt : Qltb (draws q) gamma_ca = true).
  { apply Qltb_lt. eapply Qlt_le_trans; [apply Hdraws | assumption]. }
  now rewrite Hlt.
Qed.

(** X8. With gamma_ca at most 0 and non-negative draws nobody recovers: a
    cell recorded as Infected is Infected in every later row. *)
Theorem no_recovery :
  1 <= L -> 1 <= time_steps ->
  (forall q, (0 <= draws q)%Q) -> (gamma_ca <= 0)%Q ->
  exists h,
    run_ca_simulation L time_steps I_sir gamma_ca k_infection draws = Ok h /\
    forall t t' i, t <= t' -> t' < time_steps -> i < L ->
      cell h t i = INFECTED -> cell h t' i = INFECTED.
Proof.
  intros HL Hts Hdraws Hgamma.
  destruct (run_ca_simulation_ok L time_steps I_sir gamma_ca k_infection draws)
    as (h & Hrun & Hok); [lia | lia |].
  exists h. split; [assumption|]. intros t t' i Htt Ht' Hi Hinf.
  induction Htt as [|t' Htt IH]; [assumption|].
  destruct (history_next Hok t' i Ht' Hi) as [q ->].
  rewrite cell_next_infected by (apply IH; lia).
  rewrite Qltb_ge; [reflexivity|].
  eapply Qle_trans; [exact Hgamma | apply Hdraws].
Qed.

(** X9. The infection moves one cell per step at most: a cell that is not
    Susceptible in row t is within t cells of the seed cell L // 2 on the
    ring, whatever the draws and the parameters are. *)
Theorem infection_light_cone :
  1 <= L -> 1 <= time_steps ->
  exists h,
    run_ca_simulation L time_steps I_sir gamma_ca k_infection draws = Ok h /\
    forall t i, t < time_steps -> i < L ->
      cell h t i <> SUSCEPTIBLE -> within L t i.
Proof.
  intros HL Hts.
  destruct (run_ca_simulation_ok L time_steps I_sir gamma_ca k_infection draws)
    as (h & Hrun & Hok); [lia | lia |].
  exists h. split; [assumption|]. apply (history_light_cone Hok).
Qed.

(** X10. Once a row holds no Infected cell the epidemic is over: every
    later row is equal to it. *)
Theorem extinction_is_final :
  1 <= L -> 1 <= time_steps ->
  exists h,
    run_ca_simulation L time_steps I_sir gamma_ca k_infection draws = Ok h /\
    forall t t', t <= t' -> t' < time_steps ->
      (forall i, i < L -> cell h t i <> INFECTED) ->
      h !!! t' = h !!! t.
Proof.
  intros HL Hts.
  destruct (run_ca_simulation_ok L time_steps I_sir gamma_ca k_infection draws)
    as (h & Hrun & Hok); [lia | lia |].
  exists h. split; [assumption|]. intros t t' Htt Ht' Hno.
  replace t' with (t + (t' - t)) by lia.
  apply (history_extinct Hok); [lia | assumption].
Qed.

(** X11. A run consumes at most L (time_steps - 1) draws: two random
    streams that agree on their first L (time_steps - 1) draws give the
    same outcome. *)
Theorem run_depends_on_first_draws (draws' : nat -> Q) :
  (forall q, q < L * (time_steps - 1) -> draws q = draws' q) ->
  run_ca_simulation L time_steps I_sir gamma_ca k_infection draws =
  run_ca_simulation L time_steps I_sir gamma_ca k_infection draws'.
Proof. apply run_ca_simulation_agree. Qed.

End AutomatonFurther.

Lemma isolated_susceptible_stays_witness :
  exists h,
    CA.run_ca_simulation 8 6 (fun _ => 1%Q) (1 # 2) 1 CA.example_draws = Ok h /\
    CA.cell h 1 0 = SUSCEPTIBLE.
Proof.
  destruct (isolated_susceptible_stays 8 6 (fun _ => 1%Q) (1 # 2) 1
              CA.example_draws) as (h & Hrun & Hstay); [lia | lia |].
  exists h. split; [assumption|].
  assert (Hh : h !!! 0 = [0; 0; 0; 0; 1; 0; 0; 0]%Z).
  { vm_compute in Hrun. injection Hrun as <-. reflexivity. }
  apply (Hstay 0 0); [lia | lia | |].
  - unfold CA.cell. now rewrite Hh.
  - now rewrite Hh.
Defined.

Lemma no_transmission_without_prevalence_witness :
  exists h,
    CA.run_ca_simulation 8 6 (fun _ => 0%Q) (1 # 2) 1 CA.example_draws = Ok h /\
    forall t i, t < 6 -> i < 8 -> i <> 8 / 2 -> CA.cell h t i = SUSCEPTIBLE.
Proof.
  apply (no_transmission_without_prevalence 8 6); [lia | lia | |].
  - intros q. apply example_draws_unit.
  - intros t. discriminate.
Defined.

Lemma certain_recovery_witness :
  exists h,
    CA.run_ca_simulation 8 6 (fun _ => 1%Q) 1 1 CA.example_draws = Ok h /\
    forall t i, S t < 6 -> i < 8 ->
      CA.cell h t i = INFECTED -> CA.cell h (S t) i = RECOVERED.
Proof.
  apply (certain_recovery 8 6); [lia | lia | | discriminate].
  intros q. apply example_draws_unit.
Defined.

Lemma no_recovery_witness :
  exists h,
    CA.run_ca_simulation 8 6 (fun _ => 1%Q) 0 1 CA.example_draws = Ok h /\
    forall t t' i, t <= t' -> t' < 6 -> i < 8 ->
      CA.cell h t i = INFECTED -> CA.cell h t' i = INFECTED.
Proof.
  apply (no_recovery 8 6); [lia | lia | | discriminate].
  intros q. apply example_draws_unit.
Defined.

Lemma infection_light_cone_witness :
  exists h,
    CA.run_ca_simulation 8 6 (fun _ => 1%Q) (1 # 2) 1 CA.example_draws = Ok h /\
    forall t i, t < 6 -> i < 8 ->
      CA.cell h t i <> SUSCEPTIBLE -> Pipeline.within 8 t i.
Proof. apply (infection_light_cone 8 6); lia. Defined.

(** With certain recovery and no prevalence the seed recovers in row 1 and
    the rows 1 to 5 are the same. *)
Lemma extinction_is_final_witness :
  exists h,
    CA.run_ca_simulation 8 6 (fun _ => 0%Q) 1 1 CA.example_draws = Ok h /\
    (forall i, i < 8 -> CA.cell h 1 i <> INFECTED) /\
    h !!! 5 = h !!! 1.
Proof.
  destruct (extinction_is_final 8 6 (fun _ => 0%Q) 1 1 CA.example_draws)
    as (h & Hrun & Hfinal); [lia | lia |].
  exists h. split; [assumption|].
  assert (Hh : h !!! 1 = [0; 0; 0; 0; 2; 0; 0; 0]%Z).
  { vm_compute in Hrun. injection Hrun as <-. reflexivity. }
  assert (Hno : forall i, i < 8 -> CA.cell h 1 i <> INFECTED).
  { intros i Hi. unfold CA.cell. rewrite Hh.
    do 8 (destruct i as [|i]; [discriminate|]). lia. }
  split; [exact Hno|]. apply Hfinal; [lia | lia | exact Hno].
Defined.

Lemma run_depends_on_first_draws_witness :
  CA.run_ca_simulation 8 6 (fun _ => 1%Q) (1 # 2) 1 CA.example_draws =
  CA.run_ca_simulation 8 6 (fun _ => 1%Q) (1 # 2) 1
    (fun q => if q <? 40 then CA.example_draws q else 5%Q).
Proof.
  apply run_depends_on_first_draws. intros q Hq.
  destruct (Nat.ltb_spec q 40) as [_|]; [reflexivity | cbn in Hq; lia].
Defined.

(** * Further properties of the box count *)

Module Counting.
Import BoxDim BoxSizes BoxDimFacts Windows.

Lemma fold_count_filter {A : Type} (P : A -> bool) (l : list A) (c0 : nat) :
  fold_left (fun count i => if P i then count + 1 else count) l c0
    = c0 + length (List.filter P l).
Proof.
  revert c0. induction l as [|a l IH]; intros c0; cbn; [lia|].
  rewrite IH. destruct (P a); cbn; lia.
Qed.

Lemma filter_map_length {A B : Type} (P : B -> bool) (f : A -> B)
    (l : list A) :
  length (List.filter P (map f l))
    = length (List.filter (fun a => P (f a)) l).
Proof.
  induction l as [|a l IH]; cbn; [reflexivity|].
  destruct (P (f a)); cbn; now rewrite IH.
Qed.

(** The count of a size is the number of its windows that pass the test. *)
Lemma count_boxes_cnt (g : list Z) (L size : nat) :
  count_boxes g L size = cnt (window_active g size) (windows L size).
Proof.
  unfold count_boxes, range_step, cnt, windows, window_active.
  now rewrite fold_count_filter, filter_map_length.
Qed.

Lemma cnt_S (P : nat -> bool) (n : nat) :
  cnt P (S n) = cnt P n + (if P n then 1 else 0).
Proof.
  unfold cnt. rewrite seq_S, List.filter_app, List.length_app. cbn.
  destruct (P n); reflexivity.
Qed.

Lemma cnt_le (P : nat -> bool) (n : nat) : cnt P n <= n.
Proof.
  unfold cnt. etransitivity; [apply filter_length_bound|].
  now rewrite length_seq.
Qed.

Lemma cnt_pos (P : nat -> bool) (n j : nat) :
  j < n -> P j = true -> 1 <= cnt P n.
Proof.
  intros Hj HP. unfold cnt.
  assert (Hin : In j (List.filter P (seq 0 n))).
  { apply filter_In. split; [apply in_seq; lia | assumption]. }
  destruct (List.filter P (seq 0 n)); [destruct Hin | cbn; lia].
Qed.

Lemma cnt_extend (P : nat -> bool) (n m : nat) :
  n <= m -> (forall j, n <= j < m -> P j = false) -> cnt P m = cnt P n.
Proof.
  intros Hnm. induction Hnm as [|m Hnm IH]; intros Hfalse; [reflexivity|].
  rewrite cnt_S, (Hfalse m) by lia. rewrite IH; [lia|].
  intros j Hj. apply Hfalse. lia.
Qed.

Lemma cnt_ext (P P' : nat -> bool) (n : nat) :
  (forall j, j < n -> P j = P' j) -> cnt P n = cnt P' n.
Proof.
  intros H. unfold cnt. f_equal. apply List.filter_ext_in.
  intros j Hj. apply in_seq in Hj. apply H. lia.
Qed.

(** Windows of double width against pairs of windows. *)
Lemma cnt_pairs (A B : nat -> bool) (n : nat) :
  (forall j, B j = A (2 * j) || A (2 * j + 1)) ->
  cnt B n <= cnt A (2 * n) <= 2 * cnt B n.
Proof.
  intros HB. induction n as [|n IH]; [cbn; lia|].
  replace (2 * S n) with (S (S (2 * n))) by lia.
  rewrite !cnt_S, HB. replace (S (2 * n)) with (2 * n + 1) by lia.
  destruct (A (2 * n)), (A (2 * n + 1)); cbn [orb]; lia.
Qed.

(** *** The windows *)

Lemma windows_spec (L size j : nat) :
  1 <= size -> j < windows L size <-> j * size < L.
Proof.
  intros Hs. unfold windows. destruct L as [|L].
  - rewrite Nat.div_small by lia. lia.
  - replace (S L + size - 1) with (L + 1 * size) by lia.
    rewrite Nat.div_add by lia.
    pose proof (Nat.div_mod_eq L size) as Hdm.
    pose proof (Nat.mod_upper_bound L size ltac:(lia)) as Hm.
    split; intros H; nia.
Qed.

Lemma windows_double (L size : nat) :
  1 <= size -> windows L size <= 2 * windows L (2 * size).
Proof.
  intros Hs.
  destruct (Nat.le_gt_cases (windows L size) (2 * windows L (2 * size)))
    as [|Hgt]; [assumption|].
  apply (proj1 (windows_spec L size _ Hs)) in Hgt.
  assert (Hlt : windows L (2 * size) < windows L (2 * size)); [|lia].
  apply windows_spec; lia.
Qed.

Lemma slice_window (g : list Z) (i size : nat) :
  slice g i (i + size) = take size (drop i g).
Proof. unfold slice. f_equal. lia. Qed.

Lemma window_active_beyond (g : list Z) (size j : nat) :
  length g <= j * size -> window_active g size j = false.
Proof.
  intros H. unfold window_active. rewrite slice_window, drop_ge by assumption.
  now rewrite take_nil.
Qed.

Lemma window_active_double (g : list Z) (size j : nat) :
  window_active g (2 * size) j =
    window_active g size (2 * j) || window_active g size (2 * j + 1).
Proof.
  unfold window_active, any_active. rewrite !slice_window.
  replace (2 * size) with (size + size) by lia.
  rewrite <- take_take_drop, existsb_app, drop_drop.
  replace (j * (size + size)) with (2 * j * size) by lia.
  replace (2 * j * size + size) with ((2 * j + 1) * size) by lia.
  reflexivity.
Qed.

(** The window that holds an active cell passes the test. *)
Lemma window_active_of_cell (g : list Z) (size i : nat) :
  1 <= size -> i < length g -> active (nth i g 0%Z) = true ->
  window_active g size (i / size) = true.
Proof.
  intros Hs Hi Hact. unfold window_active, any_active.
  rewrite slice_window. apply existsb_exists. exists (nth i g 0%Z).
  split; [|assumption]. apply list_elem_of_In.
  apply (list_elem_of_lookup_2 _ (i mod size)).
  pose proof (Nat.div_mod_eq i size) as Hdm.
  pose proof (Nat.mod_upper_bound i size ltac:(lia)) as Hm.
  rewrite lookup_take_lt, lookup_drop by assumption.
  replace (i / size * size + i mod size) with i by lia.
  rewrite nth_lookup. now rewrite list_lookup_lookup_total_lt.
Qed.

Lemma window_active_unit (g : list Z) (i : nat) :
  i < length g -> window_active g 1 i = active (nth i g 0%Z).
Proof.
  intros Hi. unfold window_active, any_active. rewrite slice_window.
  rewrite Nat.mul_1_r, nth_lookup.
  destruct (g !! i) as [c|] eqn:Hc.
  - rewrite (drop_S _ _ _ Hc). cbn. now rewrite orb_false_r.
  - apply lookup_ge_None in Hc. lia.
Qed.

(** *** The counts *)

Lemma count_boxes_upper (g : list Z) (L size : nat) :
  count_boxes g L size <= windows L size.
Proof. rewrite count_boxes_cnt. apply cnt_le. Qed.

Lemma count_boxes_lower (g : list Z) (size i : nat) :
  1 <= size -> i < length g -> active (nth i g 0%Z) = true ->
  1 <= count_boxes g (length g) size.
Proof.
  intros Hs Hi Hact. rewrite count_boxes_cnt.
  apply (cnt_pos _ _ (i / size)).
  - apply windows_spec; [assumption|].
    pose proof (Nat.div_mod_eq i size). nia.
  - now apply window_active_of_cell.
Qed.

Lemma count_boxes_unit (g : list Z) :
  count_boxes g (length g) 1 = length (active_cells_indices g).
Proof.
  rewrite count_boxes_cnt. unfold active_cells_indices, cnt, windows.
  replace (length g + 1 - 1) with (length g) by lia. rewrite Nat.div_1_r.
  f_equal. apply List.filter_ext_in. intros i Hi. apply in_seq in Hi.
  apply window_active_unit. lia.
Qed.

Lemma count_boxes_double (g : list Z) (size : nat) :
  1 <= size ->
  count_boxes g (length g) (2 * size) <= count_boxes g (length g) size
    <= 2 * count_boxes g (length g) (2 * size).
Proof.
  intros Hs. rewrite !count_boxes_cnt.
  rewrite <- (cnt_extend (window_active g size) (windows (length g) size)
                (2 * windows (length g) (2 * size))).
  - apply cnt_pairs. intros j. apply window_active_double.
  - now apply windows_double.
  - intros j [Hj _]. apply window_active_beyond.
    destruct (Nat.le_gt_cases (length g) (j * size)) as [|Hlt]; [assumption|].
    apply (proj2 (windows_spec (length g) size j Hs)) in Hlt. lia.
Qed.

Lemma active_cell_exists (g : list Z) :
  1 <= length (active_cells_indices g) ->
  exists i, i < length g /\ active (nth i g 0%Z) = true.
Proof.
  unfold active_cells_indices. intros H.
  destruct (List.filter _ _) as [|i l] eqn:Hf; [cbn in H; lia|].
  assert (Hin : In i (i :: l)) by now left.
  rewrite <- Hf in Hin. apply filter_In in Hin as [Hin Hact].
  apply in_seq in Hin. exists i. split; [lia | assumption].
Qed.

(** With an active cell in the grid no box size is dropped by the filter
    of line 108. *)
Lemma valid_of_all (g : list Z) :
  1 <= length (active_cells_indices g) ->
  valid_of g = seq 0 (length (sizes_of g)).
Proof.
  intros Hact. destruct (active_cell_exists g Hact) as (i & Hi & Hc).
  unfold valid_of. rewrite FullGrid.valid_indices_all.
  - unfold counts_of. now rewrite List.length_map.
  - intros c Hin. unfold counts_of in Hin.
    apply in_map_iff in Hin as (size & <- & Hsize).
    apply (count_boxes_lower g size i); [|assumption|assumption].
    unfold sizes_of, gen_box_sizes in Hsize.
    apply in_map_iff in Hsize as (j & <- & _).
    apply Nat.neq_0_lt_0, Nat.pow_nonzero. lia.
Qed.

End Counting.

(** * Further properties of the regression *)

Module RegressionBounds.
Import BoxDim RegressionFacts.
#[local] Open Scope R_scope.

Section Sums.

Context {A : Type}.
Variables (u v : A -> R).

Lemma Rsum_affine (a b c d : R) (l : list A) :
  Rsum (map (fun i => a * (u i * v i) - u i * b - v i * c + d) l) =
    a * Rsum (map (fun i => u i * v i) l) - Rsum (map u l) * b
    - Rsum (map v l) * c + INR (length l) * d.
Proof.
  induction l as [|i l IH]; [cbn; ring|].
  rewrite !map_cons, !Rsum_cons, IH. cbn [length]. rewrite S_INR.
  cbv beta. ring.
Qed.

Lemma Rsum_map_nonneg (f : A -> R) (l : list A) :
  (forall i, In i l -> 0 <= f i) -> 0 <= Rsum (map f l).
Proof.
  induction l as [|i l IH]; intros Hf; [cbn; lra|].
  rewrite map_cons, Rsum_cons.
  pose proof (Hf i (or_introl eq_refl)).
  assert (0 <= Rsum (map f l)) by (apply IH; intros j Hj; apply Hf; now right).
  lra.
Qed.

Lemma Rsum_pairs_inner (ui vi : R) (l : list A) :
  Rsum (map (fun j => (ui - u j) * (vi - v j)) l) =
    INR (length l) * (ui * vi) - ui * Rsum (map v l) - vi * Rsum (map u l)
    + Rsum (map (fun j => u j * v j) l).
Proof.
  rewrite (map_ext _ (fun j => 1 * (u j * v j) - u j * vi - v j * ui
                                + ui * vi))
    by (intros j; ring).
  rewrite Rsum_affine. ring.
Qed.

(** The sum over all pairs of the products of the differences. *)
Lemma Rsum_pairs (l : list A) :
  Rsum (map (fun i => Rsum (map (fun j => (u i - u j) * (v i - v j)) l)) l) =
    2 * (INR (length l) * Rsum (map (fun i => u i * v i) l)
         - Rsum (map u l) * Rsum (map v l)).
Proof.
  rewrite (map_ext _ (fun i =>
             INR (length l) * (u i * v i) - u i * Rsum (map v l)
             - v i * Rsum (map u l) + Rsum (map (fun j => u j * v j) l)))
    by (intros i; rewrite Rsum_pairs_inner; ring).
  rewrite Rsum_affine. ring.
Qed.

(** Two series ordered the same way have a non-negative covariance. *)
Lemma same_order_sums (l : list A) :
  (forall i j, In i l -> In j l -> 0 <= (u i - u j) * (v i - v j)) ->
  Rsum (map u l) * Rsum (map v l)
    <= INR (length l) * Rsum (map (fun i => u i * v i) l).
Proof.
  intros Hord.
  assert (H : 0 <= Rsum (map (fun i =>
                 Rsum (map (fun j => (u i - u j) * (v i - v j)) l)) l)).
  { apply Rsum_map_nonneg. intros i Hi. apply Rsum_map_nonneg.
    intros j Hj. now apply Hord. }
  rewrite Rsum_pairs in H. lra.
Qed.

Lemma zip_with_maps {C : Type} (f : R -> R -> C) (l : list A) :
  zip_with f (map u l) (map v l) = map (fun i => f (u i) (v i)) l.
Proof. induction l as [|i l IH]; cbn; [reflexivity | now rewrite IH]. Qed.

(** The covariance of two series given by their index. *)
Lemma cov_maps (l : list A) :
  l <> [] ->
  cov (map u l) (map v l) =
    (INR (length l) * Rsum (map (fun i => u i * v i) l)
     - Rsum (map u l) * Rsum (map v l)) / (INR (length l) * INR (length l)).
Proof.
  intros Hl.
  assert (Hn : INR (length l) <> 0).
  { apply not_0_INR. destruct l; [congruence | cbn; lia]. }
  unfold cov, mean at 1. rewrite zip_with_maps, !List.length_map.
  rewrite (map_ext _ (fun i => 1 * (u i * v i) - u i * mean (map v l)
                                - v i * mean (map u l)
                                + mean (map u l) * mean (map v l)))
    by (intros i; ring).
  rewrite Rsum_affine. unfold mean. rewrite !List.length_map.
  field. assumption.
Qed.

End Sums.

Lemma Rsum_minus {A : Type} (u v : A -> R) (l : list A) :
  Rsum (map (fun i => u i - v i) l) = Rsum (map u l) - Rsum (map v l).
Proof.
  induction l as [|i l IH]; [cbn; ring|].
  rewrite !map_cons, !Rsum_cons, IH. ring.
Qed.

Lemma Rsum_mult_minus {A : Type} (u v : A -> R) (l : list A) :
  Rsum (map (fun i => u i * (u i - v i)) l) =
    Rsum (map (fun i => u i * u i) l) - Rsum (map (fun i => u i * v i) l).
Proof.
  induction l as [|i l IH]; [cbn; ring|].
  rewrite !map_cons, !Rsum_cons, IH. cbv beta. ring.
Qed.

(** When y moves with x, but never by more than x does, the covariance of
    x and y lies between 0 and the variance of x. *)
Lemma cov_between {A : Type} (u v : A -> R) (l : list A) :
  l <> [] ->
  (forall i j, In i l -> In j l ->
     0 <= (u i - u j) * (v i - v j) /\
     0 <= (u i - u j) * ((u i - v i) - (u j - v j))) ->
  0 <= cov (map u l) (map v l) <= cov (map u l) (map u l).
Proof.
  intros Hl Hord.
  assert (Hn : 0 < INR (length l)).
  { apply lt_0_INR. destruct l; [congruence | cbn; lia]. }
  assert (Hnn : 0 < INR (length l) * INR (length l))
    by now apply Rmult_lt_0_compat.
  pose proof (same_order_sums u v l
                (fun i j Hi Hj => proj1 (Hord i j Hi Hj))) as H1.
  pose proof (same_order_sums u (fun i => u i - v i) l
                (fun i j Hi Hj => proj2 (Hord i j Hi Hj))) as H2.
  rewrite Rsum_minus, Rsum_mult_minus in H2.
  rewrite !cov_maps by assumption.
  set (n := INR (length l)) in *.
  set (su := Rsum (map u l)) in *. set (sv := Rsum (map v l)) in *.
  set (suv := Rsum (map (fun i => u i * v i) l)) in *.
  set (suu := Rsum (map (fun i => u i * u i) l)) in *.
  split.
  - apply Rmult_le_pos; [lra | left; now apply Rinv_0_lt_compat].
  - apply Rmult_le_compat_r; [left; now apply Rinv_0_lt_compat | lra].
Qed.

Lemma cov_self_nonneg (x : list R) : x <> [] -> 0 <= cov x x.
Proof.
  intros Hx. unfold cov. rewrite zip_with_diag. unfold mean at 1.
  rewrite List.length_map.
  apply Rmult_le_pos.
  - apply Rsum_map_nonneg. intros a _.
    pose proof (Rle_0_sqr (a - mean x)) as H. unfold Rsqr in H. exact H.
  - left. apply Rinv_0_lt_compat, lt_0_INR.
    destruct x; [congruence | cbn; lia].
Qed.

(** With as many y as x values and two different x values the regression
    succeeds, its slope is a number, and the variance of x is positive. *)
Lemma linregress_defined (x y : list R) :
  length x = length y ->
  (exists a b, In a x /\ In b x /\ a < b) ->
  linregress x y = Ok (Num (cov x y / cov x x)) /\ 0 < cov x x.
Proof.
  intros Hlen (a & b & Ha & Hb & Hab).
  assert (Hx : x <> []) by (intros ->; destruct Ha).
  assert (Hpos : (0 < length x)%nat) by (destruct x; [congruence | cbn; lia]).
  assert (Hv : cov x x <> 0).
  { intros H0. pose proof (cov_self_zero x Hx H0) as Heq.
    rewrite (Heq a Ha), (Heq b Hb) in Hab. lra. }
  pose proof (cov_self_nonneg x Hx) as Hnn.
  split; [|lra].
  unfold linregress. rewrite <- Hlen.
  destruct (Nat.eqb_spec (length x) 0) as [|_]; [lia|]. cbn [orb].
  assert (Hmm : amax x <> amin x).
  { pose proof (amax_ge x b Hb). pose proof (amin_le x a Ha). lra. }
  rewrite (bool_decide_eq_false_2 _ Hmm), andb_false_r.
  rewrite Nat.eqb_refl. cbn [negb]. cbv zeta.
  now rewrite (bool_decide_eq_false_2 _ Hv).
Qed.

End RegressionBounds.

(** * Further properties of the dimension estimate *)

Module DimensionBounds.
Import BoxDim BoxSizes BoxDimFacts RegressionFacts RegressionBounds.
Import FullGrid Counting Windows.

Lemma pow2_pos (i : nat) : 1 <= 2 ^ i.
Proof. apply Nat.neq_0_lt_0, Nat.pow_nonzero. lia. Qed.

(** Doubling the width d times divides the count by 2^d at most and never
    raises it. *)
Lemma count_chain (g : list Z) (i d : nat) :
  N_of g (i + d) <= N_of g i <= 2 ^ d * N_of g (i + d).
Proof.
  induction d as [|d IH].
  - rewrite Nat.add_0_r. cbn. lia.
  - pose proof (count_boxes_double g (2 ^ (i + d)) (pow2_pos _)) as Hd.
    rewrite <- Nat.pow_succ_r' in Hd. fold (N_of g (S (i + d))) in Hd.
    fold (N_of g (i + d)) in Hd.
    replace (i + S d) with (S (i + d)) by lia.
    rewrite Nat.pow_succ_r'. nia.
Qed.

Lemma N_of_pos (g : list Z) (i : nat) :
  1 <= length (active_cells_indices g) -> 1 <= N_of g i.
Proof.
  intros Hact. destruct (active_cell_exists g Hact) as (c & Hc & Hcact).
  apply (count_boxes_lower g (2 ^ i) c); [apply pow2_pos | assumption..].
Qed.

Lemma sizes_of_eq (g : list Z) :
  sizes_of g = map (fun i => 2 ^ i) (seq 0 (Nat.log2 (length g))).
Proof. apply gen_box_sizes_log2. Qed.

Lemma counts_of_eq (g : list Z) :
  counts_of g = map (N_of g) (seq 0 (Nat.log2 (length g))).
Proof. unfold counts_of. now rewrite sizes_of_eq, map_map. Qed.

#[local] Open Scope R_scope.

Lemma ln_le (x y : R) : 0 < x -> x <= y -> ln x <= ln y.
Proof.
  intros Hx [Hlt | ->]; [left; now apply ln_increasing | right; reflexivity].
Qed.

Lemma log_inv_sizes_eq (g : list Z) :
  log_inv_sizes (sizes_of g) = map x_of (seq 0 (Nat.log2 (length g))).
Proof. unfold log_inv_sizes. now rewrite sizes_of_eq, map_map. Qed.

Lemma log_counts_eq (g : list Z) :
  log_counts_of (counts_of g) = map (y_of g) (seq 0 (Nat.log2 (length g))).
Proof. unfold log_counts_of. now rewrite counts_of_eq, map_map. Qed.

Lemma x_of_gap (i d : nat) : x_of i - x_of (i + d) = ln (INR (2 ^ d)).
Proof.
  unfold x_of. rewrite !ln_inv_size.
  replace (2 ^ (i + d))%nat with (2 ^ d * 2 ^ i)%nat
    by (rewrite <- Nat.pow_add_r; f_equal; lia).
  rewrite mult_INR, ln_mult by apply INR_pow2_pos. ring.
Qed.

Lemma ln_pow2_nonneg (d : nat) : 0 <= ln (INR (2 ^ d)).
Proof.
  rewrite <- ln_1. apply ln_le; [lra|].
  change 1 with (INR 1). apply le_INR, pow2_pos.
Qed.

(** From one box size to a larger one log(count) falls, by no more than
    log(1/size) does. *)
Lemma y_of_gap (g : list Z) (i d : nat) :
  (1 <= length (active_cells_indices g))%nat ->
  0 <= y_of g i - y_of g (i + d) <= ln (INR (2 ^ d)).
Proof.
  intros Hact. unfold y_of.
  pose proof (count_chain g i d) as [Hlo Hhi].
  pose proof (N_of_pos g (i + d) Hact) as Hpos.
  assert (Hp : 0 < INR (N_of g (i + d))) by (apply lt_0_INR; lia).
  split.
  - assert (ln (INR (N_of g (i + d))) <= ln (INR (N_of g i))); [|lra].
    apply ln_le; [assumption | now apply le_INR].
  - assert (ln (INR (N_of g i))
            <= ln (INR (2 ^ d)) + ln (INR (N_of g (i + d)))); [|lra].
    rewrite <- ln_mult, <- mult_INR by (apply INR_pow2_pos || assumption).
    apply ln_le; [|now apply le_INR].
    apply lt_0_INR. pose proof (N_of_pos g i Hact). lia.
Qed.

Lemma ordered_pair (g : list Z) (i j : nat) :
  (1 <= length (active_cells_indices g))%nat ->
  0 <= (x_of i - x_of j) * (y_of g i - y_of g j) /\
  0 <= (x_of i - x_of j) * ((x_of i - y_of g i) - (x_of j - y_of g j)).
Proof.
  intros Hact.
  destruct (Nat.le_ge_cases i j) as [Hij|Hji].
  - assert (exists d, j = (i + d)%nat) as [d ->]
      by (exists (j - i)%nat; lia).
    pose proof (x_of_gap i d) as Hx.
    pose proof (y_of_gap g i d Hact) as Hy.
    pose proof (ln_pow2_nonneg d) as HD.
    set (D := ln (INR (2 ^ d))) in *.
    set (e := y_of g i - y_of g (i + d)) in *.
    replace (x_of i - y_of g i - (x_of (i + d) - y_of g (i + d)))
      with (D - e) by (unfold e; lra).
    rewrite Hx. split; apply Rmult_le_pos; lra.
  - assert (exists d, i = (j + d)%nat) as [d ->]
      by (exists (i - j)%nat; lia).
    pose proof (x_of_gap j d) as Hx.
    pose proof (y_of_gap g j d Hact) as Hy.
    pose proof (ln_pow2_nonneg d) as HD.
    set (D := ln (INR (2 ^ d))) in *.
    set (e := y_of g j - y_of g (j + d)) in *.
    replace (x_of (j + d) - x_of j) with (- D) by lra.
    replace (y_of g (j + d) - y_of g j) with (- e) by (unfold e; lra).
    replace (x_of (j + d) - y_of g (j + d) - (x_of j - y_of g j))
      with (- (D - e)) by (unfold e; lra).
    split.
    + replace (- D * - e) with (D * e) by ring. apply Rmult_le_pos; lra.
    + replace (- D * - (D - e)) with (D * (D - e)) by ring.
      apply Rmult_le_pos; lra.
Qed.

Lemma log2_ge_2 (L : nat) : (4 <= L)%nat -> (2 <= Nat.log2 L)%nat.
Proof.
  intros H. change 2%nat with (Nat.log2 4). now apply Nat.log2_le_mono.
Qed.

Lemma x_of_distinct (k : nat) :
  (2 <= k)%nat ->
  exists a b, In a (map x_of (seq 0 k)) /\ In b (map x_of (seq 0 k)) /\ a < b.
Proof.
  intros Hk. exists (x_of 1), (x_of 0). split; [|split].
  - apply in_map. apply in_seq. lia.
  - apply in_map. apply in_seq. lia.
  - unfold x_of. apply ln_increasing; cbn; lra.
Qed.

(** With two active cells or more in a grid of four cells or more the
    regression is reached and succeeds: the estimate is the slope
    cov(x, y) / var(x) over all the box sizes. *)
Lemma calculate_box_dimension_slope (g : list Z) :
  (2 <= length (active_cells_indices g))%nat -> (4 <= length g)%nat ->
  let x := log_inv_sizes (sizes_of g) in
  let y := log_counts_of (counts_of g) in
  regression_of g = Ok (Num (cov x y / cov x x)) /\
  calculate_box_dimension g = Ok (cov x y / cov x x) /\
  0 < cov x x.
Proof.
  intros Hact Hlen x y.
  pose proof (log2_ge_2 _ Hlen) as Hk.
  assert (Hls : length (sizes_of g) = Nat.log2 (length g)).
  { now rewrite sizes_of_eq, List.length_map, length_seq. }
  assert (Hlc : length (counts_of g) = Nat.log2 (length g)).
  { now rewrite counts_of_eq, List.length_map, length_seq. }
  assert (Hvalid : valid_of g = seq 0 (length (sizes_of g)))
    by (apply valid_of_all; lia).
  assert (Hsx : select (sizes_of g) (valid_of g) = sizes_of g)
    by (rewrite Hvalid; apply select_all).
  assert (Hsy : select (counts_of g) (valid_of g) = counts_of g).
  { rewrite Hvalid, Hls, <- Hlc. apply select_all. }
  destruct (linregress_defined x y) as [Hreg Hvar].
  { unfold x, y, log_inv_sizes, log_counts_of.
    rewrite !List.length_map. lia. }
  { unfold x. rewrite log_inv_sizes_eq. now apply x_of_distinct. }
  split; [|split; [|assumption]].
  - unfold regression_of. now rewrite Hsx, Hsy.
  - rewrite calculate_box_dimension_unfold.
    destruct (Nat.ltb_spec (length (active_cells_indices g)) 2); [lia|].
    destruct (Nat.eqb_spec (length (sizes_of g)) 0); [lia|].
    rewrite Hvalid, length_seq.
    destruct (Nat.ltb_spec (length (sizes_of g)) 2); [lia|].
    rewrite <- Hvalid, Hsx, Hsy. fold x y.
    unfold regression_slope. now rewrite Hreg.
Qed.

(** The estimate lies between 0 and 1. *)
Lemma calculate_box_dimension_bounds (g : list Z) :
  exists r, calculate_box_dimension g = Ok r /\ 0 <= r <= 1.
Proof.
  destruct (Nat.lt_ge_cases (length (active_cells_indices g)) 2) as [Hact|Hact].
  { exists 0. split; [|lra].
    apply calculate_box_dimension_degenerate. now left. }
  destruct (Nat.lt_ge_cases (length g) 4) as [Hlen|Hlen].
  { exists 0. split; [|lra].
    now apply calculate_box_dimension_degenerate, short_grid_degenerate. }
  destruct (calculate_box_dimension_slope g Hact Hlen) as (_ & Hcbd & Hvar).
  eexists. split; [exact Hcbd|].
  revert Hvar. rewrite log_inv_sizes_eq, log_counts_eq.
  set (l := seq 0 (Nat.log2 (length g))). intros Hvar.
  destruct (cov_between x_of (y_of g) l) as [Hlo Hhi].
  { unfold l. pose proof (log2_ge_2 _ Hlen).
    destruct (Nat.log2 (length g)); [lia | discriminate]. }
  { intros i j _ _. apply ordered_pair. lia. }
  split.
  - apply Rmult_le_pos; [assumption | left; now apply Rinv_0_lt_compat].
  - apply (Rmult_le_reg_r (cov (map x_of l) (map x_of l))); [assumption|].
    unfold Rdiv. rewrite Rmult_assoc, Rinv_l by lra. lra.
Qed.

End DimensionBounds.

(** * The dimension series *)

Module PipelineFacts.
Import BoxDim BoxDimFacts CA CAFacts Pipeline DimensionBounds.

Section MapM.

Context {A B : Type}.
Variable f : A -> result B.

Lemma mapM_cons (a : A) (l : list A) :
  mapM f (a :: l) = y ← f a; k ← mapM f l; Ok (y :: k).
Proof. reflexivity. Qed.

Lemma mapM_returns (P : B -> Prop) (l : list A) :
  (forall a, In a l -> exists b, f a = Ok b /\ P b) ->
  exists bs, mapM f l = Ok bs /\ length bs = length l /\ Forall P bs.
Proof.
  induction l as [|a l IH]; intros Hf.
  - exists []. repeat split. constructor.
  - destruct (Hf a (or_introl eq_refl)) as (b & Hb & HP).
    destruct IH as (bs & Hbs & Hlen & HPs);
      [intros a' Ha'; apply Hf; now right|].
    exists (b :: bs). rewrite mapM_cons, Hb. cbn. rewrite Hbs. cbn.
    split; [reflexivity|]. split; [now rewrite Hlen | now constructor].
Qed.

Lemma mapM_raises (e : exn) (l1 l2 : list A) (a : A) :
  (forall a', In a' l1 -> exists b, f a' = Ok b) ->
  f a = Raise e ->
  mapM f (l1 ++ a :: l2) = Raise e.
Proof.
  intros Hok Ha. induction l1 as [|a1 l1 IH].
  - cbn [app]. rewrite mapM_cons, Ha. reflexivity.
  - cbn [app]. rewrite mapM_cons.
    destruct (Hok a1 (or_introl eq_refl)) as [b ->]. cbn.
    rewrite IH; [reflexivity|]. intros a' Ha'. apply Hok. now right.
Qed.

End MapM.

Lemma getrow_in_range (h : list (list Z)) (i : nat) :
  i < length h -> getrow h i = Ok (h !!! i).
Proof.
  intros Hi. unfold getrow. now rewrite list_lookup_lookup_total_lt.
Qed.

Lemma getrow_out_of_range (h : list (list Z)) (i : nat) :
  length h <= i -> getrow h i = Raise IndexError.
Proof. intros Hi. unfold getrow. now rewrite lookup_ge_None_2. Qed.

Lemma row_dimension (h : list (list Z)) (i : nat) :
  i < length h ->
  exists r, (row ← getrow h i; calculate_box_dimension row) = Ok r /\
            (0 <= r <= 1)%R.
Proof.
  intros Hi. rewrite getrow_in_range by assumption. cbn.
  apply calculate_box_dimension_bounds.
Qed.

Lemma dimension_series_returns (h : list (list Z)) (time_steps : nat) :
  time_steps <= length h ->
  exists ds, dimension_series h time_steps = Ok ds /\
             length ds = time_steps /\
             Forall (fun r => (0 <= r <= 1)%R) ds.
Proof.
  intros Hts. unfold dimension_series.
  destruct (mapM_returns
              (fun i => row ← getrow h i; calculate_box_dimension row)
              (fun r => (0 <= r <= 1)%R) (seq 0 time_steps))
    as (ds & Hds & Hlen & Hall).
  { intros i Hi. apply in_seq in Hi. apply row_dimension. lia. }
  exists ds. rewrite length_seq in Hlen. auto.
Qed.

Lemma dimension_series_raises (h : list (list Z)) (time_steps : nat) :
  length h < time_steps -> dimension_series h time_steps = Raise IndexError.
Proof.
  intros Hts. unfold dimension_series.
  replace time_steps with (length h + S (time_steps - length h - 1)) by lia.
  rewrite seq_app. cbn [seq Nat.add]. apply mapM_raises.
  - intros i Hi. apply in_seq in Hi.
    destruct (row_dimension h i) as (r & Hr & _); [lia|]. now exists r.
  - rewrite getrow_out_of_range by lia. reflexivity.
Qed.

(** *** The first row *)

Lemma filter_false_on {A : Type} (f : A -> bool) (l : list A) :
  (forall a, In a l -> f a = false) -> List.filter f l = [].
Proof.
  induction l as [|a l IH]; intros H; cbn; [reflexivity|].
  rewrite (H a (or_introl eq_refl)). apply IH.
  intros b Hb. apply H. now right.
Qed.

Lemma initial_grid_nth (L i : nat) :
  i < L ->
  nth i (initial_grid L) 0%Z =
    if decide (i = L / 2) then INFECTED else SUSCEPTIBLE.
Proof.
  intros Hi. rewrite <- initial_grid_lookup by assumption.
  rewrite nth_lookup, list_lookup_lookup_total_lt; [reflexivity|].
  unfold initial_grid. now rewrite length_insert, length_replicate.
Qed.

(** The initial grid has one active cell, the seed. *)
Lemma initial_grid_active (L : nat) :
  1 <= L -> active_cells_indices (initial_grid L) = [L / 2].
Proof.
  intros HL. unfold active_cells_indices.
  assert (Hlen : length (initial_grid L) = L).
  { unfold initial_grid. now rewrite length_insert, length_replicate. }
  assert (Hhalf : L / 2 < L) by (apply Nat.div_lt; lia).
  assert (Hsplit : seq 0 L =
            seq 0 (L / 2) ++ L / 2 :: seq (S (L / 2)) (L - L / 2 - 1)).
  { replace L with (L / 2 + S (L - L / 2 - 1)) at 1 by lia.
    now rewrite seq_app. }
  rewrite Hlen, Hsplit, List.filter_app. cbn [List.filter].
  rewrite initial_grid_nth, decide_True by (reflexivity || assumption).
  cbn [active INFECTED Z.ltb Z.compare].
  rewrite !filter_false_on; [reflexivity | |].
  - intros i Hi. apply in_seq in Hi.
    rewrite initial_grid_nth, decide_False by lia. reflexivity.
  - intros i Hi. apply in_seq in Hi.
    rewrite initial_grid_nth, decide_False by lia. reflexivity.
Qed.

Lemma initial_grid_dimension (L : nat) :
  1 <= L -> calculate_box_dimension (initial_grid L) = Ok 0%R.
Proof.
  intros HL. apply calculate_box_dimension_degenerate. left.
  rewrite initial_grid_active by assumption. cbn. lia.
Qed.

Lemma dimension_series_head (h : list (list Z)) (time_steps : nat) (r : R)
    (ds : list R) :
  1 <= time_steps -> 1 <= length h ->
  calculate_box_dimension (h !!! 0) = Ok r ->
  dimension_series h time_steps = Ok ds -> ds !! 0 = Some r.
Proof.
  intros Hts Hh Hr. unfold dimension_series.
  destruct time_steps as [|n]; [lia|]. cbn [seq]. rewrite mapM_cons.
  rewrite getrow_in_range by lia. cbn. rewrite Hr. cbn.
  destruct (mapM _ (seq 1 n)) as [k|e]; cbn; [|discriminate].
  now intros [= <-].
Qed.

End PipelineFacts.

Section DimensionFurther.
Import BoxDim BoxDimFacts Counting DimensionBounds Pipeline PipelineFacts.

(** X12. The count for the box size 1 is the number of active cells. *)
Theorem count_boxes_unit_size (grid_state : list Z) :
  count_boxes grid_state (length grid_state) 1 =
    length (active_cells_indices grid_state).
Proof. apply count_boxes_unit. Qed.

(** X13. In a grid with an active cell every box size from 1 on has a
    count of at least 1, and of at most the number of windows,
    ceil(L / size). *)
Theorem count_boxes_range (grid_state : list Z) (size : nat) :
  1 <= size ->
  (exists i, i < length grid_state /\ (0 < nth i grid_state 0)%Z) ->
  1 <= count_boxes grid_state (length grid_state) size
    <= (length grid_state + size - 1) / size.
Proof.
  intros Hs (i & Hi & Hact). split.
  - apply (count_boxes_lower grid_state size i); [assumption..|].
    now apply Z.ltb_lt.
  - apply count_boxes_upper.
Qed.

Lemma count_boxes_range_witness :
  1 <= count_boxes [0; 0; 2; 0; 1]%Z (length [0; 0; 2; 0; 1]%Z) 2
    <= (length [0; 0; 2; 0; 1]%Z + 2 - 1) / 2.
Proof.
  apply count_boxes_range; [lia|]. exists 2. split; [cbn; lia | reflexivity].
Defined.

(** X14. Doubling the box size never raises the count and at most halves
    it: count(2 s) <= count(s) <= 2 count(2 s), for every grid and every
    size s >= 1. *)
Theorem count_boxes_halving (grid_state : list Z) (size : nat) :
  1 <= size ->
  count_boxes grid_state (length grid_state) (2 * size)
    <= count_boxes grid_state (length grid_state) size
    <= 2 * count_boxes grid_state (length grid_state) (2 * size).
Proof. apply count_boxes_double. Qed.

Lemma count_boxes_halving_witness :
  count_boxes [1; 0; 2; 1; 0; 0; 1]%Z 7 (2 * 2)
    <= count_boxes [1; 0; 2; 1; 0; 0; 1]%Z 7 2
    <= 2 * count_boxes [1; 0; 2; 1; 0; 0; 1]%Z 7 (2 * 2).
Proof. apply (count_boxes_halving [1; 0; 2; 1; 0; 0; 1]%Z 2). lia. Defined.

(** X15. A grid of fewer than four cells has fewer than two box sizes: its
    estimate is 0.0 whatever its cells are. *)
Theorem short_grid_dimension (grid_state : list Z) :
  length grid_state < 4 -> calculate_box_dimension grid_state = Ok 0%R.
Proof.
  intros H. now apply calculate_box_dimension_degenerate,
              FullGrid.short_grid_degenerate.
Qed.

Lemma short_grid_dimension_witness :
  calculate_box_dimension [1; 2; 1]%Z = Ok 0%R.
Proof. apply short_grid_dimension. cbn. lia. Defined.

(** X16. With two active cells or more in a grid of four cells or more no
    box size is dropped for a zero count, the regression neither raises
    nor gives a slope that is not a number, and the estimate is the slope
    cov(x, y) / var(x) of log(count) against log(1 / size) over all the box
    sizes, with var(x) > 0. *)
Theorem regression_always_defined (grid_state : list Z) :
  2 <= length (active_cells_indices grid_state) ->
  4 <= length grid_state ->
  let x := log_inv_sizes (sizes_of grid_state) in
  let y := log_counts_of (counts_of grid_state) in
  valid_of grid_state = seq 0 (length (sizes_of grid_state)) /\
  regression_of grid_state = Ok (Num (cov x y / cov x x)) /\
  calculate_box_dimension grid_state = Ok (cov x y / cov x x)%R /\
  (0 < cov x x)%R.
Proof.
  intros Hact Hlen x y. split; [apply valid_of_all; lia|].
  now apply calculate_box_dimension_slope.
Qed.

Lemma regression_always_defined_witness :
  calculate_box_dimension [1; 0; 2; 1; 0; 0; 1; 2]%Z =
    Ok (cov (log_inv_sizes (sizes_of [1; 0; 2; 1; 0; 0; 1; 2]%Z))
            (log_counts_of (counts_of [1; 0; 2; 1; 0; 0; 1; 2]%Z))
        / cov (log_inv_sizes (sizes_of [1; 0; 2; 1; 0; 0; 1; 2]%Z))
              (log_inv_sizes (sizes_of [1; 0; 2; 1; 0; 0; 1; 2]%Z)))%R.
Proof.
  destruct (regression_always_defined [1; 0; 2; 1; 0; 0; 1; 2]%Z)
    as (_ & _ & H & _); [cbn; lia | cbn; lia | exact H].
Defined.

(** X17. For every grid the estimate, with exact real arithmetic, lies
    between 0 and 1. *)
Theorem calculate_box_dimension_unit_interval (grid_state : list Z) :
  exists r, calculate_box_dimension grid_state = Ok r /\ (0 <= r <= 1)%R.
Proof. apply calculate_box_dimension_bounds. Qed.

(** X18. The dimension series of a history of at least time_steps rows is
    returned and has time_steps values; with fewer rows the row lookup
    raises IndexError. *)
Theorem dimension_series_outcome (ca_history : list (list Z))
    (time_steps : nat) :
  (time_steps <= length ca_history ->
   exists ds, dimension_series ca_history time_steps = Ok ds /\
              length ds = time_steps) /\
  (length ca_history < time_steps ->
   dimension_series ca_history time_steps = Raise IndexError).
Proof.
  split; [|apply dimension_series_raises].
  intros Hts.
  destruct (dimension_series_returns ca_history time_steps Hts)
    as (ds & Hds & Hlen & _).
  now exists ds.
Qed.

Lemma dimension_series_outcome_witness :
  (exists ds, dimension_series [[0; 1; 1; 0]; [1; 1; 2; 0]]%Z 2 = Ok ds /\
              length ds = 2) /\
  dimension_series [[0; 1; 1; 0]; [1; 1; 2; 0]]%Z 3 = Raise IndexError.
Proof.
  destruct (dimension_series_outcome [[0; 1; 1; 0]; [1; 1; 2; 0]]%Z 2)
    as [Hok _].
  destruct (dimension_series_outcome [[0; 1; 1; 0]; [1; 1; 2; 0]]%Z 3)
    as [_ Hraise].
  split; [apply Hok; cbn; lia | apply Hraise; cbn; lia].
Defined.

(** X19. In main the automaton is run and the estimate taken of every row
    of its history: for L >= 1 and time_steps >= 1 this raises nothing and
    gives time_steps values, the first of them, that of the initial grid
    with its single Infected cell, the 0.0 of the first guard, whatever
    the draws and the parameters are. *)
Theorem ca_dimensions_series (L time_steps : nat) (I_normalized : nat -> Q)
    (gamma_ca k_infection : Q) (draws : nat -> Q) :
  1 <= L -> 1 <= time_steps ->
  exists ds,
    ca_dimensions L time_steps I_normalized gamma_ca k_infection draws
      = Ok ds /\
    length ds = time_steps /\
    ds !! 0 = Some 0%R.
Proof.
  intros HL Hts. unfold ca_dimensions.
  destruct (CAFacts.run_ca_simulation_ok L time_steps I_normalized gamma_ca
              k_infection draws HL Hts) as (h & -> & Hok).
  cbn [mbind result_bind].
  pose proof (CA.hist_length _ _ _ _ _ _ _ Hok) as Hlen.
  destruct (dimension_series_returns h time_steps) as (ds & Hds & Hl & _);
    [lia|].
  exists ds. split; [assumption|]. split; [assumption|].
  apply (dimension_series_head h time_steps); [lia | lia | | assumption].
  rewrite (CA.hist_init _ _ _ _ _ _ _ Hok).
  now apply initial_grid_dimension.
Qed.

Lemma ca_dimensions_series_witness :
  exists ds,
    ca_dimensions 8 6 (fun _ => 1%Q) (1 # 2) 1 CA.example_draws = Ok ds /\
    length ds = 6 /\
    ds !! 0 = Some 0%R.
Proof. apply ca_dimensions_series; lia. Defined.

End DimensionFurther.
